(** * cf-logs-loki-uploader: the parser package

    A shallow embedding of [parser.go] (type [Parser] with [Stop], [Scan],
    [Worker], [parseFile], [Metrics] and the helper [parseDataLine]) and of
    the two model types of [models/].

    Go strings are byte strings; they are embedded as [string], whose
    characters are the 256 values of [ascii].  The external collaborators
    (the S3 client, the gzip reader and line scanner, the loki batch, the
    JSON encoder) are not part of the package: their answers come from an
    environment record, and every call the package makes to them is written
    to an event trace. *)

From Stdlib Require Import ZArith Ascii String DecimalString DecimalNat.
From stdpp Require Import base option list gmap strings.

Local Open Scope string_scope.
Local Open Scope list_scope.

(** ** The [strings] and [fmt] functions the package calls *)

(** [strings.HasPrefix s pre]. *)
Fixpoint strings_HasPrefix (s pre : string) {struct pre} : bool :=
  match pre with
  | EmptyString => true
  | String p pre' =>
      match s with
      | EmptyString => false
      | String c s' => if Ascii.eqb c p then strings_HasPrefix s' pre' else false
      end
  end.

(** [strings.Contains s sub]. *)
Fixpoint strings_Contains (s sub : string) : bool :=
  if strings_HasPrefix s sub then true
  else match s with
       | EmptyString => false
       | String _ s' => strings_Contains s' sub
       end.

(** [strings.Split s sep] for a separator of one byte (the package only
    splits on ["/"]).  The result is never empty. *)
Fixpoint strings_Split (s : string) (sep : ascii) : list string :=
  match s with
  | EmptyString => [EmptyString]
  | String c s' =>
      if Ascii.eqb c sep then EmptyString :: strings_Split s' sep
      else match strings_Split s' sep with
           | [] => [String c EmptyString]
           | seg :: segs => String c seg :: segs
           end
  end.

(** White space as [strings.Fields] sees it.  On ASCII bytes this is the
    table [asciiSpace]; a string with a byte above 0x7f is decoded as UTF-8
    and split at the runes of [unicode.IsSpace].  Each such rune has one
    valid encoding, which starts with a lead byte, so it is recognised on the
    bytes: [spaceWidth s] is the number of bytes of the white-space rune at
    the start of [s], and 0 when there is none. *)
Definition byteIs (c : ascii) (n : nat) : bool := Nat.eqb (nat_of_ascii c) n.

Definition byteIn (c : ascii) (lo hi : nat) : bool :=
  Nat.leb lo (nat_of_ascii c) && Nat.leb (nat_of_ascii c) hi.

Definition asciiSpace (c : ascii) : bool :=
  byteIs c 9 || byteIs c 10 || byteIs c 11 || byteIs c 12 || byteIs c 13
  || byteIs c 32.

Definition spaceWidth (s : string) : nat :=
  match s with
  | EmptyString => 0
  | String c0 rest =>
      if asciiSpace c0 then 1
      else
        match rest with
        | String c1 rest1 =>
            if byteIs c0 194 && (byteIs c1 133 || byteIs c1 160)
            then 2                                   (* U+0085, U+00A0 *)
            else
              match rest1 with
              | String c2 _ =>
                  if byteIs c0 225 && byteIs c1 154 && byteIs c2 128
                  then 3                             (* U+1680 *)
                  else if byteIs c0 226 && byteIs c1 128
                          && (byteIn c2 128 138      (* U+2000 .. U+200A *)
                              || byteIs c2 168 || byteIs c2 169
                                                     (* U+2028, U+2029 *)
                              || byteIs c2 175)      (* U+202F *)
                  then 3
                  else if byteIs c0 226 && byteIs c1 129 && byteIs c2 159
                  then 3                             (* U+205F *)
                  else if byteIs c0 227 && byteIs c1 128 && byteIs c2 128
                  then 3                             (* U+3000 *)
                  else 0
              | EmptyString => 0
              end
        | EmptyString => 0
        end
  end.

Definition flushField (cur : string) : list string :=
  match cur with
  | EmptyString => []
  | _ => [cur]
  end.

(** [fieldsFrom skip cur s]: [skip] bytes of a white-space rune are still to
    be dropped, [cur] is the field read so far. *)
Fixpoint fieldsFrom (skip : nat) (cur : string) (s : string) : list string :=
  match s with
  | EmptyString => flushField cur
  | String c rest =>
      match skip with
      | S k => fieldsFrom k cur rest
      | O =>
          match spaceWidth s with
          | O => fieldsFrom 0 (cur +:+ String c EmptyString) rest
          | S k => flushField cur ++ fieldsFrom k EmptyString rest
          end
      end
  end.

(** [strings.Fields s]. *)
Definition strings_Fields (s : string) : list string :=
  fieldsFrom 0 EmptyString s.

Definition newline : string := String "010" EmptyString.

(** The verb [%d] of [fmt] on a length or a count. *)
Definition fmt_d (n : nat) : string :=
  NilZero.string_of_uint (Nat.to_uint n).

(** ** The model types of [models/] *)

(** [models.LogEntry], a [map[string]string]. *)
Abbreviation LogEntry := (gmap string string) (only parsing).

(** [models.W3CLog]. *)
Record W3CLog := mkW3CLog {
  HeaderFields : list string;
  Records : list LogEntry
}.

(** [models.Options]; a [time.Duration] and an [int] are integers. *)
Record Options := mkOptions {
  BucketName : string;
  WaitInterval : Z;
  Format : string;
  LokiURL : string;
  LokiUser : string;
  LokiPassword : string;
  ClusterName : string;
  Labels : gmap string string;
  Workers : Z;
  Port : Z
}.

(** ** Go errors *)

(** The error values that reach the package or are built by it: an error
    handed over by a collaborator, known by its message, and the two shapes
    of [fmt.Errorf] the package uses. *)
Inductive error :=
| External (msg : string)
| FieldCountMismatch (expected got : nat)
| Wrap (msg : string) (cause : error).

(** [err.Error()]. *)
Fixpoint error_Error (e : error) : string :=
  match e with
  | External msg => msg
  | FieldCountMismatch expected got =>
      "field count mismatch: expected " +:+ fmt_d expected +:+ ", got " +:+ fmt_d got
  | Wrap msg cause => msg +:+ ": " +:+ error_Error cause
  end.

(** ** The outside world *)

(** [types.Object] of the S3 SDK; only [Key], a [*string], is read. *)
Record Object := mkObject { Key : option string }.

Inductive ListResult :=
| ListErr (err : error)
| ListOk (Contents : list Object).

(** What [gzip.NewReader] and the [bufio.Scanner] on top of it make of an
    object body: no gzip stream at all, or the lines the scanner delivers
    followed by the value of [scanner.Err()]. *)
Inductive Body :=
| NotGzip (err : error)
| GzipLines (lines : list string) (scanErr : option error).

Inductive GetResult :=
| GetErr (err : error)
| GetOk (body : Body).

Inductive Level := LevelDebug | LevelInfo | LevelError.

(** Every call that leaves the package, and every operation on the queue,
    in the order in which it happens.  Time stamps and durations are left
    out. *)
Inductive Event :=
| EvListObjectsV2 (bucket : string) (maxKeys : Z)
| EvGetObject (bucket key : string)
| EvDeleteObject (bucket key : string)
| EvNewBatch (labels : gmap string string)
| EvBatchAdd (line : string)
| EvBatchFlush
| EvLog (lvl : Level) (msg : string) (attrs : list (string * string))
| EvPrintf (text : string)
| EvSend (key : string)
| EvRecv (key : string)
| EvClose.

(** The answers of the collaborators.  Each one may depend on everything
    that happened before (the trace up to the call), so an object can be
    there at one fetch and gone at the next, and a sink can fail at any
    line.  [json_Marshal] is [encoding/json] on a string map, which cannot
    fail. *)
Record Env := mkEnv {
  s3_ListObjectsV2 : list Event -> string -> Z -> ListResult;
  s3_GetObject : list Event -> string -> string -> GetResult;
  s3_DeleteObject : list Event -> string -> string -> option error;
  loki_Add : list Event -> string -> option error;
  loki_Flush : list Event -> option error;
  json_Marshal : gmap string string -> string
}.

(** ** Computations that call out and may panic *)

Inductive Res (A : Type) :=
| Val (a : A)
| Panic (msg : string).
Arguments Val {A} a.
Arguments Panic {A} msg.

Definition T (A : Type) : Type := list Event -> Res A * list Event.

Definition T_ret {A} (a : A) : T A := fun tr => (Val a, tr).

Definition T_bind {A B} (f : A -> T B) (m : T A) : T B :=
  fun tr =>
    match m tr with
    | (Val a, tr') => f a tr'
    | (Panic msg, tr') => (Panic msg, tr')
    end.

#[export] Instance T_mret : MRet T := @T_ret.
#[export] Instance T_mbind : MBind T := @T_bind.

Definition panic {A} (msg : string) : T A := fun tr => (Panic msg, tr).

Definition emit (e : Event) : T unit := fun tr => (Val tt, tr ++ [e]).

(** A call to a collaborator: the answer is read off the trace before the
    call, and the call is recorded. *)
Definition call {A} (answer : list Event -> A) (e : Event) : T A :=
  fun tr => (Val (answer tr), tr ++ [e]).

(** ** [parseDataLine] *)

(** The loop [for i, name := range headerFields { entry[name] = fields[i] }];
    reading [fields[i]] out of range panics. *)
Fixpoint rangeHeaderFields (i : nat) (headerFields fields : list string)
    (entry : gmap string string) : Res (gmap string string) :=
  match headerFields with
  | [] => Val entry
  | name :: names =>
      match fields !! i with
      | Some f => rangeHeaderFields (S i) names fields (<[name := f]> entry)
      | None => Panic "index out of range"
      end
  end.

(** The Go function returns [(entry, nil)] or [(nil, err)]. *)
Definition parseDataLine (line : string) (headerFields : list string)
    : Res (gmap string string + error) :=
  let fields := strings_Fields line in
  if negb (Nat.eqb (length fields) (length headerFields))
  then Val (inr (FieldCountMismatch (length headerFields) (length fields)))
  else
    match rangeHeaderFields 0 headerFields fields ∅ with
    | Val entry => Val (inl entry)
    | Panic msg => Panic msg
    end.

(** ** [parseFile] *)

(** Lines 115 to 125: the map literal, the two assignments, and the loop
    over [opts.Labels].  A Go map is visited in no fixed order; [map_fold]
    visits each key once, which is all the loop relies on. *)
Definition buildLabels (opts : Options) (namespace cloudfrontObjectName : string)
    : gmap string string :=
  let labels : gmap string string :=
    <["cloudfront" := cloudfrontObjectName]> (<["namespace" := namespace]> ∅) in
  let labels := <["cluster" := ClusterName opts]> labels in
  let labels := <["index" := ClusterName opts +:+ "-" +:+ namespace]> labels in
  map_fold (fun k v (labels : gmap string string) => <[k := v]> labels)
           labels (Labels opts).

(** The loop [for scanner.Scan() { ... }] over the lines the scanner
    delivers.  The result is [Some err] when the body returns [err] from
    [parseFile], and [None] when the loop runs to its end.  Marshalling a
    string map cannot fail, so the [log.Fatalf] branch is never taken. *)
Fixpoint scanLines (env : Env) (lines : list string) (w3cLog : W3CLog)
    : T (option error) :=
  match lines with
  | [] => mret None
  | line :: rest =>
      if strings_HasPrefix line "#Fields:" then
        match strings_Fields line with
        | _ :: fields => scanLines env rest (mkW3CLog fields (Records w3cLog))
        | [] => panic "slice bounds out of range [1:0]"
        end
      else if strings_HasPrefix line "#" || Nat.eqb (length (HeaderFields w3cLog)) 0 then
        scanLines env rest w3cLog
      else
        match parseDataLine line (HeaderFields w3cLog) with
        | Panic msg => panic msg
        | Val (inr err) => mret (Some (Wrap "error parsing data line" err))
        | Val (inl entry) =>
            let jsonString := json_Marshal env entry in
            r ← call (fun tr => loki_Add env tr jsonString) (EvBatchAdd jsonString);
            match r with
            | Some err => mret (Some (Wrap "failed to send batch" err))
            | None => scanLines env rest w3cLog
            end
        end
  end.

(** [lineCount] is declared and never counted up, so the last log line
    reports 0 lines; its labels, duration and rate are left out. *)
Definition parseFile (env : Env) (opts : Options) (fn : string) : T (option error) :=
  let parts := strings_Split fn "/" in
  match parts !! 0 with
  | None => panic "index out of range [0] with length 0"
  | Some namespace =>
  match parts !! 1 with
  | None => panic "index out of range [1] with length 1"
  | Some cloudfrontObjectName =>
      let labels := buildLabels opts namespace cloudfrontObjectName in
      _ ← emit (EvNewBatch labels);
      obj ← call (fun tr => s3_GetObject env tr (BucketName opts) fn)
                 (EvGetObject (BucketName opts) fn);
      match obj with
      | GetErr err =>
          if strings_Contains (error_Error err) "NoSuchKey" then
            _ ← emit (EvLog LevelDebug "skipping non-existent file" [("key", fn)]);
            mret None
          else mret (Some (Wrap ("failed to get object " +:+ fn) err))
      | GetOk (NotGzip err) => mret (Some (Wrap "failed to create gzip reader" err))
      | GetOk (GzipLines lines scanErr) =>
          let lineCount := 0 in
          r ← scanLines env lines (mkW3CLog [] []);
          match r with
          | Some err => mret (Some err)
          | None =>
              match scanErr with
              | Some err => mret (Some err)
              | None =>
                  _ ← emit (EvPrintf ("Parsed " +:+ fn +:+ newline));
                  r ← call (loki_Flush env) EvBatchFlush;
                  match r with
                  | Some err => mret (Some (Wrap "failed to flush batch" err))
                  | None =>
                      _ ← emit (EvLog LevelDebug "shipped file"
                                  [("key", fn); ("lines", fmt_d lineCount)]);
                      mret None
                  end
              end
          end
      end
  end
  end.

(** ** The queue and the [Parser] *)

(** A buffered [chan *string]: the elements waiting in the buffer, oldest
    first, the capacity, and whether the channel is closed.  [Scan] never
    sends a nil pointer, so an element is the string it points to.  A send
    to a full buffer waits; handing a key straight to a receiver that is
    already waiting (the only way through a channel of capacity 0) is left
    to the interleaving and not modelled. *)
Record Chan := mkChan {
  buf : list string;
  cap : nat;
  closed : bool
}.

Record Parser := mkParser {
  opts : Options;
  queue : Chan;
  stop : bool
}.

(** What [queue <- key] does when it is reached. *)
Inductive SendResult :=
| SendOk (c : Chan)
| SendBlocks
| SendPanics.

Definition chanSend (c : Chan) (key : string) : SendResult :=
  if closed c then SendPanics
  else if Nat.ltb (length (buf c)) (cap c)
       then SendOk (mkChan (buf c ++ [key]) (cap c) (closed c))
       else SendBlocks.

(** Go's [int] with its wrap-around (64 bits). *)
Definition wrapInt (z : Z) : Z := ((z + 2 ^ 63) mod 2 ^ 64 - 2 ^ 63)%Z.

(** [make(chan *string, 10*opts.Workers)] panics on a negative size (and,
    depending on the machine, on one too large to allocate, which is not
    modelled). *)
Definition NewParser (opts : Options) : Res Parser :=
  let size := wrapInt (10 * Workers opts) in
  if (size <? 0)%Z then Panic "makechan: size out of range"
  else Val (mkParser opts (mkChan [] (Z.to_nat size) false) false).

(** ** [Stop] *)

Definition Stop (s : Parser) (tr : list Event) : Res unit * Parser * list Event :=
  if stop s then (Val tt, s, tr)
  else
    let s := mkParser (opts s) (queue s) true in
    if closed (queue s) then (Panic "close of closed channel", s, tr)
    else (Val tt,
          mkParser (opts s) (mkChan (buf (queue s)) (cap (queue s)) true) (stop s),
          tr ++ [EvClose]).

(** ** [Scan] *)

(** How the loop over [output.Contents] can leave off: at its end, at a
    send that has to wait for room in the queue (with the objects still to
    visit, the first of them being the one whose key is being sent), or in
    a panic. *)
Inductive RangeResult :=
| RangeDone (num : nat)
| RangeBlocked (rest : list Object) (num : nat)
| RangePanic (msg : string).

Fixpoint scanRange (contents : list Object) (num : nat) (s : Parser)
    (tr : list Event) : RangeResult * Parser * list Event :=
  match contents with
  | [] => (RangeDone num, s, tr)
  | obj :: rest =>
      match Key obj with
      | None => scanRange rest num s tr
      | Some key =>
          if stop s then scanRange rest num s tr
          else
            match chanSend (queue s) key with
            | SendOk q =>
                scanRange rest (S num) (mkParser (opts s) q (stop s))
                          (tr ++ [EvSend key])
            | SendBlocks => (RangeBlocked (obj :: rest) num, s, tr)
            | SendPanics => (RangePanic "send on closed channel", s, tr)
            end
      end
  end.

Inductive ScanResult :=
| ScanReturn (err : option error)
| ScanBlocked (rest : list Object) (num : nat)
| ScanPanic (msg : string).

(** The loop and what follows it, from the object list [contents] on; this
    is also how a [Scan] that had to wait goes on. *)
Definition scanFrom (contents : list Object) (num : nat) (s : Parser)
    (tr : list Event) : ScanResult * Parser * list Event :=
  match scanRange contents num s tr with
  | (RangeDone num, s, tr) =>
      (ScanReturn None, s,
       if Nat.ltb 0 num
       then tr ++ [EvLog LevelInfo "new files"
                     [("found", fmt_d num);
                      ("queue", fmt_d (length (buf (queue s))))]]
       else tr)
  | (RangeBlocked rest num, s, tr) => (ScanBlocked rest num, s, tr)
  | (RangePanic msg, s, tr) => (ScanPanic msg, s, tr)
  end.

Definition Scan (env : Env) (s : Parser) (tr : list Event)
    : ScanResult * Parser * list Event :=
  let num := 0 in
  let maxKeys := 100%Z in
  let output := s3_ListObjectsV2 env tr (BucketName (opts s)) maxKeys in
  let tr := tr ++ [EvListObjectsV2 (BucketName (opts s)) maxKeys] in
  match output with
  | ListErr err => (ScanReturn (Some err), s, tr)
  | ListOk contents => scanFrom contents num s tr
  end.

(** ** [Worker] *)

Inductive WorkerResult :=
| WorkerReturn (err : option error)
| WorkerBlocked
| WorkerPanic (msg : string).

(** The body of the loop for the key [fn] just received: [Some r] when the
    body leaves [Worker] with [r], [None] when the loop goes on. *)
Definition workerBody (env : Env) (opts : Options) (fn : string)
    (tr : list Event) : option WorkerResult * list Event :=
  match parseFile env opts fn tr with
  | (Panic msg, tr) => (Some (WorkerPanic msg), tr)
  | (Val (Some err), tr) =>
      (Some (WorkerReturn (Some err)),
       tr ++ [EvLog LevelError "failed to ship file"
                [("key", fn); ("err", error_Error err)]])
  | (Val None, tr) =>
      match s3_DeleteObject env tr (BucketName opts) fn with
      | Some err =>
          (None,
           tr ++ [EvDeleteObject (BucketName opts) fn;
                  EvLog LevelError "failed to delete file"
                    [("key", fn); ("err", error_Error err)]])
      | None => (None, tr ++ [EvDeleteObject (BucketName opts) fn])
      end
  end.

(** [for fn := range s.queue { ... }] on the buffered keys [items]; the
    keys left in the buffer when the loop is left are returned.  On an
    empty buffer the loop ends if the channel is closed and waits
    otherwise. *)
Fixpoint workerRange (env : Env) (opts : Options) (isClosed : bool)
    (items : list string) (tr : list Event)
    : WorkerResult * list string * list Event :=
  match items with
  | [] => (if isClosed then WorkerReturn None else WorkerBlocked, [], tr)
  | fn :: rest =>
      match workerBody env opts fn (tr ++ [EvRecv fn]) with
      | (Some r, tr) => (r, rest, tr)
      | (None, tr) => workerRange env opts isClosed rest tr
      end
  end.

Definition Worker (env : Env) (s : Parser) (tr : list Event)
    : WorkerResult * Parser * list Event :=
  match workerRange env (opts s) (closed (queue s)) (buf (queue s)) tr with
  | (r, items, tr) =>
      (r, mkParser (opts s) (mkChan items (cap (queue s)) (closed (queue s))) (stop s), tr)
  end.

(** ** [Metrics] *)

(** The part of [http.ResponseWriter] the handler writes to, and a request
    (which the handler does not look at). *)
Record ResponseWriter := mkResponseWriter {
  Header : gmap string (list string);
  written : string
}.

Record Request := mkRequest {
  Method : string;
  URL : string
}.

(** The handler [Metrics] returns, run on the current state of the parser
    it closes over. *)
Definition Metrics (s : Parser) (tr : list Event) (w : ResponseWriter) (r : Request)
    : ResponseWriter * Parser * list Event :=
  let w := mkResponseWriter
             (<["Content-Type" := ["text/plain; charset=utf-8"]]> (Header w))
             (written w) in
  let w := mkResponseWriter (Header w)
             (written w +:+ "cloudfront_logs_shipper_queue_length "
                +:+ fmt_d (length (buf (queue s))) +:+ newline) in
  (w, s, tr).

(** ** The states a running pipeline can be in *)

(** One step of the pipeline: a call of one of the exported methods, a
    [Scan] going on after waiting, or one turn of a [Worker] loop. *)
Inductive step (env : Env) : Parser * list Event -> Parser * list Event -> Prop :=
| step_Scan s tr r s' tr' :
    Scan env s tr = (r, s', tr') -> step env (s, tr) (s', tr')
| step_scanFrom contents num s tr r s' tr' :
    scanFrom contents num s tr = (r, s', tr') -> step env (s, tr) (s', tr')
| step_Worker s tr r s' tr' :
    Worker env s tr = (r, s', tr') -> step env (s, tr) (s', tr')
| step_workerBody s tr fn rest r tr' :
    buf (queue s) = fn :: rest ->
    workerBody env (opts s) fn (tr ++ [EvRecv fn]) = (r, tr') ->
    step env (s, tr)
         (mkParser (opts s) (mkChan rest (cap (queue s)) (closed (queue s))) (stop s), tr')
| step_Stop s tr r s' tr' :
    Stop s tr = (r, s', tr') -> step env (s, tr) (s', tr')
| step_Metrics s tr w req w' s' tr' :
    Metrics s tr w req = (w', s', tr') -> step env (s, tr) (s', tr').

Inductive reachable (env : Env) (o : Options) : Parser * list Event -> Prop :=
| reachable_new s :
    NewParser o = Val s -> reachable env o (s, [])
| reachable_step st st' :
    reachable env o st -> step env st st' -> reachable env o st'.

(** The number of keys sent to, and received from, the queue so far. *)
Definition isSend (e : Event) : bool :=
  match e with EvSend _ => true | _ => false end.

Definition isRecv (e : Event) : bool :=
  match e with EvRecv _ => true | _ => false end.

Definition isClose (e : Event) : bool :=
  match e with EvClose => true | _ => false end.

Definition countEvents (p : Event -> bool) (tr : list Event) : nat :=
  length (filter (fun e => p e = true) tr).

(** [Stop] called [n] times in a row; a panic ends the run. *)
Fixpoint StopTimes (n : nat) (s : Parser) (tr : list Event)
    : Res unit * Parser * list Event :=
  match n with
  | 0 => (Val tt, s, tr)
  | S n =>
      match Stop s tr with
      | (Val _, s, tr) => StopTimes n s tr
      | (Panic msg, s, tr) => (Panic msg, s, tr)
      end
  end.

(** ** Reading a file and a trace *)

(** The lines of a file that do not start with the comment marker, each
    with the header fields in force when it is read ([hdr] at the start).
    This is the reading of the file format, not a function of the
    package. *)
Fixpoint dataLines (hdr : list string) (lines : list string)
    : list (list string * string) :=
  match lines with
  | [] => []
  | line :: rest =>
      if strings_HasPrefix line "#Fields:" then dataLines (tail (strings_Fields line)) rest
      else if strings_HasPrefix line "#" then dataLines hdr rest
      else (hdr, line) :: dataLines hdr rest
  end.

(** The header fields in force after the lines [lines]. *)
Fixpoint headerAfter (hdr : list string) (lines : list string) : list string :=
  match lines with
  | [] => hdr
  | line :: rest =>
      if strings_HasPrefix line "#Fields:" then headerAfter (tail (strings_Fields line)) rest
      else headerAfter hdr rest
  end.

(** A data line as the file format wants it: read under a header that
    names at least one field, and with as many tokens as the header has
    names. *)
Definition goodDataLine (d : list string * string) : Prop :=
  d.1 ≠ [] ∧ length (strings_Fields d.2) = length d.1.

Definition wellFormed (lines : list string) : Prop :=
  Forall goodDataLine (dataLines [] lines).

(** The record of a data line [d] is [entry]: its keys are the header
    names, and a name is mapped to the token at the last place where the
    header has it. *)
Definition recordOf (d : list string * string) (entry : gmap string string) : Prop :=
  parseDataLine d.2 d.1 = Val (inl entry)
  ∧ dom entry = list_to_set d.1
  ∧ ∀ i name, d.1 !! i = Some name → name ∉ drop (S i) d.1 →
      entry !! name = strings_Fields d.2 !! i.

(** The lines added to a batch, the flushes and the delete requests of a
    stretch of trace. *)
Definition batchAdds (evs : list Event) : list string :=
  omap (fun e => match e with EvBatchAdd line => Some line | _ => None end) evs.

Definition isFlush (e : Event) : bool :=
  match e with EvBatchFlush => true | _ => false end.

Definition isNewBatch (e : Event) : bool :=
  match e with EvNewBatch _ => true | _ => false end.

Definition isDelete (e : Event) : bool :=
  match e with EvDeleteObject _ _ => true | _ => false end.

Definition isList (e : Event) : bool :=
  match e with EvListObjectsV2 _ _ => true | _ => false end.

Definition isGet (e : Event) : bool :=
  match e with EvGetObject _ _ => true | _ => false end.

(** The events [parseFile] can add to a trace. *)
Definition parseEvent (e : Event) : bool :=
  match e with
  | EvNewBatch _ | EvGetObject _ _ | EvBatchAdd _ | EvBatchFlush
  | EvLog _ _ _ | EvPrintf _ => true
  | _ => false
  end.

(** The dynamic labels of a key, before the configured ones are laid over
    them. *)
Definition dynamicLabels (opts : Options) (namespace cloudfront : string)
    : gmap string string :=
  {[ "namespace" := namespace;
     "cloudfront" := cloudfront;
     "cluster" := ClusterName opts;
     "index" := ClusterName opts +:+ "-" +:+ namespace ]}.

(** [s] has no ['/'] in it. *)
Fixpoint noSlash (s : string) : bool :=
  match s with
  | EmptyString => true
  | String c s' => negb (Ascii.eqb c "/") && noSlash s'
  end.

(** The lines the scan loop hands to [parseDataLine]: data lines read
    under a header that is not empty. *)
Definition parsedLines (hdr : list string) (lines : list string)
    : list (list string * string) :=
  filter (fun d => d.1 ≠ []) (dataLines hdr lines).

(** The record [parseDataLine] makes of a data line, if it makes one. *)
Definition entryOf (d : list string * string) : option (gmap string string) :=
  match parseDataLine d.2 d.1 with
  | Val (inl entry) => Some entry
  | _ => None
  end.

(** A data line with the wrong number of tokens, read under [hdr]. *)
Definition badDataLine (hdr : list string) (line : string) : Prop :=
  strings_HasPrefix line "#" = false
  ∧ hdr ≠ []
  ∧ length (strings_Fields line) ≠ length hdr.

(** The trace of adding the records [recs] to the batch, one after the
    other. *)
Definition addEvents (env : Env) (recs : list (gmap string string)) : list Event :=
  map (fun entry => EvBatchAdd (json_Marshal env entry)) recs.

(** The channel is closed exactly when [stop] is set, and then it has been
    closed once; the buffer holds what was sent and not yet received, and
    never more than its capacity. *)
Definition invariant (o : Options) (st : Parser * list Event) : Prop :=
  opts st.1 = o
  ∧ closed (queue st.1) = stop st.1
  ∧ countEvents isClose st.2 = (if stop st.1 then 1 else 0)%nat
  ∧ countEvents isSend st.2
    = (length (buf (queue st.1)) + countEvents isRecv st.2)%nat.

(** The events one turn of the [Worker] loop can add after the receive. *)
Definition bodyEvent (e : Event) : bool := parseEvent e || isDelete e.

(** Closes a goal that says of every event in a list built with [::] and
    [++] that it is of some kind. *)
Ltac events_ok :=
  repeat first [ assumption
               | exact I
               | apply Forall_nil
               | apply Forall_cons; split; [reflexivity|]
               | apply Forall_app; split ].

(** ** More readings of a trace *)

(** The keys received from the queue, and the keys of the delete requests
    and of the fetches, of a stretch of trace, in their order. *)
Definition recvKeys (evs : list Event) : list string :=
  omap (fun e => match e with EvRecv key => Some key | _ => None end) evs.

Definition deleteKeys (evs : list Event) : list string :=
  omap (fun e => match e with EvDeleteObject _ key => Some key | _ => None end) evs.

Definition getKeys (evs : list Event) : list string :=
  omap (fun e => match e with EvGetObject _ key => Some key | _ => None end) evs.

Definition sendKeys (evs : list Event) : list string :=
  omap (fun e => match e with EvSend key => Some key | _ => None end) evs.

(** The first of the records [recs] the sink turns down when they are
    added one after the other from the trace [tr] on: its place among them
    and the error. *)
Fixpoint firstReject (env : Env) (tr : list Event)
    (recs : list (gmap string string)) : option (nat * error) :=
  match recs with
  | [] => None
  | entry :: rest =>
      match loki_Add env tr (json_Marshal env entry) with
      | Some err => Some (0, err)
      | None =>
          match firstReject env (tr ++ [EvBatchAdd (json_Marshal env entry)]) rest with
          | Some (k, err) => Some (S k, err)
          | None => None
          end
      end
  end.

(** [s] has none of the six ASCII white-space bytes in it. *)
Fixpoint noSpace (s : string) : bool :=
  match s with
  | EmptyString => true
  | String c s' => negb (asciiSpace c) && noSpace s'
  end.

(** The largest number of workers for which ten times the number is still
    an [int]. *)
Definition maxWorkers : Z := 922337203685477580.

(** Any number of steps of the pipeline. *)
Definition steps (env : Env) : relation (Parser * list Event) := rtc (step env).

(** ** A small world to run the package in *)

Module Fixture.

(** Stands for [encoding/json] on keys and values that need no escape. *)
Definition marshal (entry : gmap string string) : string :=
  let quoted (x : string) := String "034" x +:+ String "034" EmptyString in
  "{" +:+ String.concat ","
            (map (fun kv => quoted kv.1 +:+ ":" +:+ quoted kv.2)
                 (map_to_list entry))
      +:+ "}".

Definition options : Options :=
  mkOptions "logs" 60 "json" "http://loki" "user" "secret" "prod"
            {[ "team" := "web"; "cluster" := "override" ]} 2 8080.

(** A bucket where [key] holds [body]; every other fetch fails with
    [getErr]; listing gives [listing]; the sink and the delete succeed. *)
Definition world (listing : ListResult) (key : string) (body : Body)
    (getErr : error) : Env :=
  mkEnv (fun _ _ _ => listing)
        (fun _ _ k => if String.eqb k key then GetOk body else GetErr getErr)
        (fun _ _ _ => None)
        (fun _ _ => None)
        (fun _ => None)
        marshal.

Definition noSuchKey : error :=
  External "operation error S3: GetObject, api error NoSuchKey: The specified key does not exist.".

Definition key : string := "teamA/dist123/2024010100.log.gz".

Definition scenarioA : Env :=
  world (ListOk [mkObject (Some key); mkObject None])
        key
        (GzipLines ["#Version: 1.0"; "#Fields: date time c-ip";
                    "2024-01-01 00:00:00 1.2.3.4"] None)
        noSuchKey.

Definition scenarioB : Env :=
  world (ListOk [mkObject (Some key)])
        key
        (GzipLines ["#Fields: date time c-ip"; "2024-01-01 00:00:00 1.2.3.4";
                    "2024-01-01 00:00:01"; "2024-01-01 00:00:02 1.2.3.5"] None)
        noSuchKey.

(** Nothing in the bucket. *)
Definition gone : Env :=
  world (ListErr (External "RequestTimeout")) EmptyString (NotGzip (External "EOF")) noSuchKey.

(** A header that names a field twice. *)
Definition twice : Env :=
  world (ListOk []) key (GzipLines ["#Fields: a a"; "1 2"] None) noSuchKey.

(** A header directive that names no field, and an empty line. *)
Definition nameless : Env :=
  world (ListOk []) key (GzipLines ["#Fields:"; EmptyString] None) noSuchKey.

(** A sink on which every delete fails. *)
Definition keeps (env : Env) : Env :=
  mkEnv (s3_ListObjectsV2 env) (s3_GetObject env)
        (fun _ _ _ => Some (External "AccessDenied"))
        (loki_Add env) (loki_Flush env) (json_Marshal env).

Definition parser : Parser :=
  mkParser options (mkChan [] 20 false) false.

(** A sink that takes the first line of a batch and turns down the next. *)
Definition choosy (env : Env) : Env :=
  mkEnv (s3_ListObjectsV2 env) (s3_GetObject env) (s3_DeleteObject env)
        (fun tr _ =>
           match last tr with
           | Some (EvBatchAdd _) => Some (External "429 Too Many Requests")
           | _ => None
           end)
        (loki_Flush env) (json_Marshal env).

(** A sink on which the flush fails. *)
Definition clogged (env : Env) : Env :=
  mkEnv (s3_ListObjectsV2 env) (s3_GetObject env) (s3_DeleteObject env)
        (loki_Add env) (fun _ => Some (External "502 Bad Gateway"))
        (json_Marshal env).

(** Two good data lines, and a stream that breaks off after them. *)
Definition twoLines : list string :=
  ["#Fields: date time c-ip"; "2024-01-01 00:00:00 1.2.3.4";
   "2024-01-01 00:00:02 1.2.3.5"].

Definition scenarioTwo : Env :=
  world (ListOk [mkObject (Some key)]) key (GzipLines twoLines None) noSuchKey.

Definition truncated : Env :=
  world (ListOk [mkObject (Some key)]) key
        (GzipLines twoLines (Some (External "unexpected EOF"))) noSuchKey.

End Fixture.

(** * Properties *)

(** ** Strings *)

Lemma append_cons c (a b : string) : String c a +:+ b = String c (a +:+ b).
Proof. reflexivity. Qed.

Lemma append_nil_l (b : string) : EmptyString +:+ b = b.
Proof. reflexivity. Qed.

Lemma append_assoc (a b c : string) : (a +:+ b) +:+ c = a +:+ (b +:+ c).
Proof.
  induction a as [|x a IH]; [done|]. rewrite !append_cons. by rewrite IH.
Qed.

Lemma append_empty_r (a : string) : a +:+ EmptyString = a.
Proof.
  induction a as [|x a IH]; [done|]. rewrite append_cons. by rewrite IH.
Qed.

Lemma HasPrefix_spec s pre :
  strings_HasPrefix s pre = true ↔ ∃ suf, s = pre +:+ suf.
Proof.
  revert s. induction pre as [|p pre IH]; intros s; simpl.
  - split; [intros _; by exists s | done].
  - destruct s as [|c s].
    + split; [done | by intros [suf ?]].
    + destruct (Ascii.eqb_spec c p) as [->|Hne].
      * rewrite IH. split; intros [suf Hs]; exists suf;
          rewrite append_cons in *; congruence.
      * split; [done | intros [suf Hs]; rewrite append_cons in Hs; congruence].
Qed.

Lemma HasPrefix_app pre suf : strings_HasPrefix (pre +:+ suf) pre = true.
Proof. apply HasPrefix_spec. by exists suf. Qed.

(** A byte that is no white space and no lead byte of a white-space rune
    starts no white space, whatever follows it. *)
Lemma spaceWidth_plain c rest :
  asciiSpace c = false →
  byteIs c 194 = false → byteIs c 225 = false →
  byteIs c 226 = false → byteIs c 227 = false →
  spaceWidth (String c rest) = 0.
Proof.
  intros H0 H1 H2 H3 H4. unfold spaceWidth. rewrite H0, H1, H2, H3, H4. simpl.
  destruct rest as [|c1 [|c2 rest]]; reflexivity.
Qed.

Lemma spaceWidth_asciiSpace c rest :
  asciiSpace c = true → spaceWidth (String c rest) = 1.
Proof. intros H. unfold spaceWidth. by rewrite H. Qed.

(** Once a field has been started, [fieldsFrom] delivers it first. *)
Lemma fieldsFrom_started s : ∀ cur,
  cur ≠ EmptyString →
  ∃ suf rest, fieldsFrom 0 cur s = (cur +:+ suf) :: rest.
Proof.
  induction s as [|c s IH]; intros cur Hcur.
  - exists EmptyString, []. simpl. rewrite append_empty_r.
    destruct cur; [done | reflexivity].
  - cbn [fieldsFrom]. destruct (spaceWidth (String c s)) as [|k].
    + destruct (IH (cur +:+ String c EmptyString)) as (suf & rest & Heq).
      { destruct cur; done. }
      exists (String c suf), rest. rewrite Heq. by rewrite append_assoc.
    + exists EmptyString, (fieldsFrom k EmptyString s).
      rewrite append_empty_r. destruct cur; [done | reflexivity].
Qed.

(** The fields of a line that starts with the header directive: the first
    one starts with the directive. *)
Lemma Fields_directive suf :
  strings_Fields ("#Fields:" +:+ suf) = fieldsFrom 0 "#Fields:" suf.
Proof.
  unfold strings_Fields. rewrite !append_cons, append_nil_l.
  repeat (cbn [fieldsFrom]; rewrite spaceWidth_plain by reflexivity;
          rewrite ?append_cons, ?append_nil_l).
  reflexivity.
Qed.

Lemma Fields_directive_head line :
  strings_HasPrefix line "#Fields:" = true →
  ∃ tok fields, strings_Fields line = tok :: fields
                ∧ strings_HasPrefix tok "#Fields:" = true.
Proof.
  intros [suf ->]%HasPrefix_spec. rewrite Fields_directive.
  destruct (fieldsFrom_started suf "#Fields:") as (suf' & rest & ->); [done|].
  exists ("#Fields:" +:+ suf'), rest. split; [done | apply HasPrefix_app].
Qed.

Lemma Fields_directive_space c rest :
  asciiSpace c = true →
  strings_Fields ("#Fields:" +:+ String c rest) = "#Fields:" :: strings_Fields rest.
Proof.
  intros Hc. rewrite Fields_directive. cbn [fieldsFrom].
  by rewrite spaceWidth_asciiSpace.
Qed.

(** [strings.Split] on a separator. *)
Lemma Split_nonempty s sep : strings_Split s sep ≠ [].
Proof.
  destruct s as [|c s]; simpl; [done|].
  destruct (Ascii.eqb c sep); [done|]. by destruct (strings_Split s sep).
Qed.

Lemma Split_noSlash s : noSlash s = true → strings_Split s "/" = [s].
Proof.
  induction s as [|c s IH]; simpl; [done|].
  destruct (Ascii.eqb c "/"); simpl; [done|]. intros H. by rewrite IH.
Qed.

Lemma Split_app a b :
  noSlash a = true →
  strings_Split (a +:+ "/" +:+ b) "/" = a :: strings_Split b "/".
Proof.
  induction a as [|c a IH]; [done|]. rewrite append_cons. simpl.
  destruct (Ascii.eqb c "/"); simpl; [done|]. intros H. by rewrite IH.
Qed.

Lemma Split_length_1 s :
  length (strings_Split s "/") = 1 ↔ noSlash s = true.
Proof.
  split; [| by intros ->%Split_noSlash].
  induction s as [|c s IH]; simpl; [done|].
  destruct (Ascii.eqb c "/"); simpl.
  - pose proof (Split_nonempty s "/"). destruct (strings_Split s "/"); done.
  - pose proof (Split_nonempty s "/").
    destruct (strings_Split s "/") as [|seg segs] eqn:E; [done|]. simpl in *. done.
Qed.

(** ** [parseDataLine] *)

Lemma rangeHeaderFields_spec (names : list string) :
  ∀ i (fields : list string) (entry : gmap string string),
  (i + length names ≤ length fields)%nat →
  ∃ entry' : gmap string string,
    rangeHeaderFields i names fields entry = Val entry'
    ∧ dom entry' = dom entry ∪ list_to_set names
    ∧ (∀ name, name ∉ names → entry' !! name = entry !! name)
    ∧ (∀ j name, names !! j = Some name → name ∉ drop (S j) names →
         entry' !! name = fields !! (i + j)).
Proof.
  induction names as [|n names IH]; intros i fields entry Hlen; simpl in *.
  - exists entry. split_and!; [done | set_solver | done | done].
  - destruct (lookup_lt_is_Some_2 fields i) as [f Hf]; [lia|]. rewrite Hf.
    destruct (IH (S i) fields (<[n:=f]> entry)) as (e' & He & Hdom & Hout & Hin); [lia|].
    exists e'. split_and!; [done | | |].
    + rewrite Hdom, dom_insert_L. set_solver.
    + intros name Hname. rewrite Hout by set_solver.
      apply lookup_insert_ne. set_solver.
    + intros [|j] name Hj Hlast; simpl in *.
      * injection Hj as ->. rewrite Hout by done.
        rewrite lookup_insert_eq, Nat.add_0_r. done.
      * rewrite (Hin j name Hj Hlast). f_equal. lia.
Qed.

Lemma parseDataLine_mismatch line hdr :
  length (strings_Fields line) ≠ length hdr →
  parseDataLine line hdr
  = Val (inr (FieldCountMismatch (length hdr) (length (strings_Fields line)))).
Proof.
  intros Hne. unfold parseDataLine.
  destruct (Nat.eqb_spec (length (strings_Fields line)) (length hdr)); done.
Qed.

Lemma parseDataLine_match line hdr :
  length (strings_Fields line) = length hdr →
  ∃ entry, recordOf (hdr, line) entry.
Proof.
  intros Heq. unfold recordOf, parseDataLine. simpl.
  rewrite Heq, Nat.eqb_refl. simpl.
  destruct (rangeHeaderFields_spec hdr 0 (strings_Fields line) ∅)
    as (e & -> & Hdom & _ & Hin); [lia|].
  exists e. split_and!; [done | rewrite Hdom; set_solver | done].
Qed.

(** [parseDataLine] does not panic: its one index is guarded by the
    comparison of the two lengths. *)
Lemma parseDataLine_no_panic line hdr msg : parseDataLine line hdr ≠ Panic msg.
Proof.
  destruct (decide (length (strings_Fields line) = length hdr)) as [Heq|Hne].
  - destruct (parseDataLine_match line hdr Heq) as (e & He & _). simpl in He.
    by rewrite He.
  - by rewrite parseDataLine_mismatch.
Qed.

(** ** The scan loop, line by line *)

Lemma comment_not_directive line :
  strings_HasPrefix line "#" = false → strings_HasPrefix line "#Fields:" = false.
Proof.
  destruct line as [|c line]; [done|]. simpl.
  destruct (Ascii.eqb c "#"); done.
Qed.

Lemma scanLines_directive env line rest w :
  strings_HasPrefix line "#Fields:" = true →
  scanLines env (line :: rest) w
  = scanLines env rest (mkW3CLog (tail (strings_Fields line)) (Records w)).
Proof.
  intros Hd. cbn [scanLines]. rewrite Hd.
  destruct (Fields_directive_head line Hd) as (tok & fields & -> & _). done.
Qed.

Lemma scanLines_skip env line rest w :
  strings_HasPrefix line "#Fields:" = false →
  strings_HasPrefix line "#" = true ∨ HeaderFields w = [] →
  scanLines env (line :: rest) w = scanLines env rest w.
Proof.
  intros Hd Hs. cbn [scanLines]. rewrite Hd.
  destruct Hs as [-> | ->]; [done|]. simpl. by rewrite orb_true_r.
Qed.

Lemma scanLines_bad env line rest w tr :
  badDataLine (HeaderFields w) line →
  scanLines env (line :: rest) w tr
  = (Val (Some (Wrap "error parsing data line"
                  (FieldCountMismatch (length (HeaderFields w))
                                      (length (strings_Fields line))))), tr).
Proof.
  intros (Hc & Hh & Hn). cbn [scanLines].
  rewrite (comment_not_directive _ Hc), Hc.
  destruct (HeaderFields w) as [|h hdr] eqn:E; [done|]. simpl orb. cbv iota.
  rewrite parseDataLine_mismatch by done. done.
Qed.

Lemma scanLines_good env line rest w tr entry :
  strings_HasPrefix line "#" = false →
  HeaderFields w ≠ [] →
  parseDataLine line (HeaderFields w) = Val (inl entry) →
  scanLines env (line :: rest) w tr
  = match loki_Add env tr (json_Marshal env entry) with
    | Some err => (Val (Some (Wrap "failed to send batch" err)),
                   tr ++ [EvBatchAdd (json_Marshal env entry)])
    | None => scanLines env rest w (tr ++ [EvBatchAdd (json_Marshal env entry)])
    end.
Proof.
  intros Hc Hh Hp. cbn [scanLines].
  rewrite (comment_not_directive _ Hc), Hc.
  destruct (HeaderFields w) as [|h hdr] eqn:E; [done|]. cbn [orb length Nat.eqb].
  rewrite Hp. unfold mbind, T_mbind, T_bind, call.
  destruct (loki_Add env tr (json_Marshal env entry)); reflexivity.
Qed.

(** How one line is read, by cases on the line and on the header in
    force. *)
Lemma line_cases hdr line :
  strings_HasPrefix line "#Fields:" = true
  ∨ (strings_HasPrefix line "#Fields:" = false
     ∧ (strings_HasPrefix line "#" = true ∨ hdr = []))
  ∨ badDataLine hdr line
  ∨ (strings_HasPrefix line "#" = false ∧ hdr ≠ []
     ∧ ∃ entry, recordOf (hdr, line) entry).
Proof.
  destruct (strings_HasPrefix line "#Fields:") eqn:Hd; [by left|]. right.
  destruct (strings_HasPrefix line "#") eqn:Hc; [left; auto|].
  destruct hdr as [|h hdr]; [left; auto|]. right.
  destruct (decide (length (strings_Fields line) = length (h :: hdr))) as [Heq|Hne].
  - right. split_and!; [done..|]. by apply parseDataLine_match.
  - left. done.
Qed.

Lemma dataLines_directive hdr line rest :
  strings_HasPrefix line "#Fields:" = true →
  dataLines hdr (line :: rest) = dataLines (tail (strings_Fields line)) rest.
Proof. intros H. cbn [dataLines]. by rewrite H. Qed.

Lemma dataLines_comment hdr line rest :
  strings_HasPrefix line "#Fields:" = false →
  strings_HasPrefix line "#" = true →
  dataLines hdr (line :: rest) = dataLines hdr rest.
Proof. intros H1 H2. cbn [dataLines]. by rewrite H1, H2. Qed.

Lemma dataLines_data hdr line rest :
  strings_HasPrefix line "#" = false →
  dataLines hdr (line :: rest) = (hdr, line) :: dataLines hdr rest.
Proof. intros H. cbn [dataLines]. by rewrite (comment_not_directive _ H), H. Qed.

Lemma parsedLines_directive hdr line rest :
  strings_HasPrefix line "#Fields:" = true →
  parsedLines hdr (line :: rest) = parsedLines (tail (strings_Fields line)) rest.
Proof. intros H. unfold parsedLines. by rewrite dataLines_directive. Qed.

Lemma parsedLines_skip hdr line rest :
  strings_HasPrefix line "#Fields:" = false →
  strings_HasPrefix line "#" = true ∨ hdr = [] →
  parsedLines hdr (line :: rest) = parsedLines hdr rest.
Proof.
  intros H1 H2. unfold parsedLines. cbn [dataLines]. rewrite H1.
  destruct (strings_HasPrefix line "#") eqn:Hc; [done|].
  destruct H2 as [?| ->]; [done|]. by rewrite filter_cons_False by (simpl; auto).
Qed.

Lemma parsedLines_data hdr line rest :
  strings_HasPrefix line "#" = false → hdr ≠ [] →
  parsedLines hdr (line :: rest) = (hdr, line) :: parsedLines hdr rest.
Proof.
  intros H1 H2. unfold parsedLines. rewrite dataLines_data by done.
  by rewrite filter_cons_True.
Qed.

Lemma addEvents_cons env entry recs :
  addEvents env (entry :: recs)
  = EvBatchAdd (json_Marshal env entry) :: addEvents env recs.
Proof. reflexivity. Qed.

Lemma batchAdds_addEvents env recs :
  batchAdds (addEvents env recs) = map (json_Marshal env) recs.
Proof. induction recs as [|e recs IH]; simpl; [done | by rewrite <- IH]. Qed.

Lemma entryOf_recordOf d entry : recordOf d entry → entryOf d = Some entry.
Proof. intros (H & _). unfold entryOf. by rewrite H. Qed.

(** ** The scan loop on a whole file *)

(** The loop adds lines to the batch and does nothing else; it does not
    panic; and every line it adds is the record of a line it parsed, in the
    order of the file. *)
Lemma scanLines_adds env lines : ∀ w tr,
  ∃ r recs,
    scanLines env lines w tr = (Val r, tr ++ addEvents env recs)
    ∧ recs `prefix_of` omap entryOf (parsedLines (HeaderFields w) lines).
Proof.
  induction lines as [|line rest IH]; intros w tr.
  - exists None, []. split; [by rewrite app_nil_r | apply prefix_nil].
  - destruct (line_cases (HeaderFields w) line)
      as [Hd | [[Hd Hs] | [Hbad | (Hc & Hh & entry & Hrec)]]].
    + rewrite scanLines_directive, parsedLines_directive by done. apply IH.
    + rewrite scanLines_skip, parsedLines_skip by done. apply IH.
    + rewrite scanLines_bad by done. eexists _, []. split; [by rewrite app_nil_r|].
      apply prefix_nil.
    + rewrite (scanLines_good _ _ _ _ _ entry) by (done || apply Hrec).
      rewrite parsedLines_data by done. cbn [omap list_omap].
      rewrite (entryOf_recordOf _ _ Hrec).
      destruct (loki_Add env tr (json_Marshal env entry)) as [err|].
      * eexists _, [entry]. split; [done|]. apply prefix_cons, prefix_nil.
      * destruct (IH w (tr ++ [EvBatchAdd (json_Marshal env entry)]))
          as (r & recs & -> & Hpre).
        exists r, (entry :: recs). split; [by rewrite <- app_assoc|].
        by apply prefix_cons.
Qed.

(** On a well-formed file and a sink that takes every line, the loop runs
    to its end and adds the record of each data line. *)
Lemma scanLines_wellFormed env lines : ∀ w tr,
  (∀ tr' line, loki_Add env tr' line = None) →
  Forall goodDataLine (dataLines (HeaderFields w) lines) →
  ∃ recs,
    scanLines env lines w tr = (Val None, tr ++ addEvents env recs)
    ∧ Forall2 recordOf (dataLines (HeaderFields w) lines) recs.
Proof.
  intros w tr Hsink. revert w tr.
  induction lines as [|line rest IH]; intros w tr Hwf.
  - exists []. split; [by rewrite app_nil_r | constructor].
  - destruct (line_cases (HeaderFields w) line)
      as [Hd | [[Hd Hs] | [Hbad | (Hc & Hh & entry & Hrec)]]].
    + rewrite scanLines_directive by done.
      rewrite dataLines_directive in * by done. by apply IH.
    + rewrite scanLines_skip by done.
      destruct (strings_HasPrefix line "#") eqn:Hc.
      * rewrite dataLines_comment in * by done. by apply IH.
      * destruct Hs as [?| Hs]; [done|].
        rewrite dataLines_data in Hwf by done.
        apply Forall_cons_1 in Hwf as [[Hne _] _]. by rewrite Hs in Hne.
    + destruct Hbad as (Hc & _ & Hn).
      rewrite dataLines_data in Hwf by done.
      apply Forall_cons_1 in Hwf as [[_ Heq] _]. done.
    + rewrite (scanLines_good _ _ _ _ _ entry) by (done || apply Hrec).
      rewrite Hsink. rewrite dataLines_data in * by done.
      apply Forall_cons_1 in Hwf as [_ Hwf].
      destruct (IH w (tr ++ [EvBatchAdd (json_Marshal env entry)]) Hwf)
        as (recs & -> & Hall).
      exists (entry :: recs). split; [by rewrite <- app_assoc|].
      by constructor.
Qed.

(** ** [parseFile] *)

(** [parseFile] on a key with at least two segments, with the calls laid
    out along the trace. *)
Lemma parseFile_eq env opts fn tr ns cf rest :
  strings_Split fn "/" = ns :: cf :: rest →
  parseFile env opts fn tr
  = let tr1 := tr ++ [EvNewBatch (buildLabels opts ns cf)] in
    let tr2 := tr1 ++ [EvGetObject (BucketName opts) fn] in
    match s3_GetObject env tr1 (BucketName opts) fn with
    | GetErr err =>
        if strings_Contains (error_Error err) "NoSuchKey"
        then (Val None,
              tr2 ++ [EvLog LevelDebug "skipping non-existent file" [("key", fn)]])
        else (Val (Some (Wrap ("failed to get object " +:+ fn) err)), tr2)
    | GetOk (NotGzip err) =>
        (Val (Some (Wrap "failed to create gzip reader" err)), tr2)
    | GetOk (GzipLines lines scanErr) =>
        match scanLines env lines (mkW3CLog [] []) tr2 with
        | (Panic msg, tr3) => (Panic msg, tr3)
        | (Val (Some err), tr3) => (Val (Some err), tr3)
        | (Val None, tr3) =>
            match scanErr with
            | Some err => (Val (Some err), tr3)
            | None =>
                let tr4 := tr3 ++ [EvPrintf ("Parsed " +:+ fn +:+ newline)] in
                match loki_Flush env tr4 with
                | Some err =>
                    (Val (Some (Wrap "failed to flush batch" err)),
                     tr4 ++ [EvBatchFlush])
                | None =>
                    (Val None,
                     tr4 ++ [EvBatchFlush;
                             EvLog LevelDebug "shipped file"
                               [("key", fn); ("lines", fmt_d 0)]])
                end
            end
        end
    end.
Proof.
  intros Hsplit. unfold parseFile. rewrite Hsplit. cbn [lookup list_lookup].
  unfold mbind, T_mbind, T_bind, mret, T_mret, T_ret, emit, call. cbv zeta.
  destruct (s3_GetObject env _ _ _) as [err | [err | lines scanErr]].
  - by destruct (strings_Contains _ _).
  - done.
  - destruct (scanLines env lines _ _) as [[[err|]|msg] tr3]; [done | | done].
    destruct scanErr as [err|]; [done|].
    destruct (loki_Flush env _) as [err|]; [done|].
    by rewrite <- (app_assoc _ [EvBatchFlush]).
Qed.

Lemma parseFile_short env opts fn tr :
  (length (strings_Split fn "/") < 2)%nat →
  parseFile env opts fn tr = (Panic "index out of range [1] with length 1", tr).
Proof.
  intros Hlen. unfold parseFile.
  pose proof (Split_nonempty fn "/") as Hne.
  destruct (strings_Split fn "/") as [|ns [|cf rest]]; [done | done | simpl in Hlen; lia].
Qed.

Lemma Split_two fn :
  (2 ≤ length (strings_Split fn "/"))%nat →
  ∃ ns cf rest, strings_Split fn "/" = ns :: cf :: rest.
Proof.
  destruct (strings_Split fn "/") as [|ns [|cf rest]]; simpl; [lia | lia | eauto].
Qed.

(** Everything [parseFile] adds to the trace is a call to the sink, a fetch
    or a log line. *)
Lemma Forall_parseEvent_addEvents env recs :
  Forall (fun e => parseEvent e = true) (addEvents env recs).
Proof. induction recs; constructor; done. Qed.

Lemma parseFile_events env opts fn tr r tr' :
  parseFile env opts fn tr = (r, tr') →
  ∃ evs, tr' = tr ++ evs ∧ Forall (fun e => parseEvent e = true) evs.
Proof.
  destruct (decide (length (strings_Split fn "/") < 2)%nat) as [Hlt|Hge].
  - rewrite parseFile_short by done. intros [= <- <-].
    exists []. by rewrite app_nil_r.
  - destruct (Split_two fn) as (ns & cf & rest & Hsplit); [lia|].
    rewrite (parseFile_eq _ _ _ _ _ _ _ Hsplit). cbv zeta.
    destruct (scanLines_adds env
                match s3_GetObject env (tr ++ [EvNewBatch (buildLabels opts ns cf)])
                        (BucketName opts) fn with
                | GetOk (GzipLines lines _) => lines
                | _ => []
                end (mkW3CLog [] [])
                ((tr ++ [EvNewBatch (buildLabels opts ns cf)])
                   ++ [EvGetObject (BucketName opts) fn]))
      as (r0 & recs & Hscan & _).
    pose proof (Forall_parseEvent_addEvents env recs) as Hadds.
    destruct (s3_GetObject env _ _ _) as [err | [err | lines scanErr]].
    + destruct (strings_Contains _ _); intros [= <- <-];
        rewrite <- !app_assoc; eexists; (split; [done|]); events_ok.
    + intros [= <- <-]. rewrite <- !app_assoc; eexists; (split; [done|]).
      events_ok.
    + rewrite Hscan. destruct r0 as [err|].
      { intros [= <- <-]. rewrite <- !app_assoc. eexists; (split; [done|]).
        events_ok. }
      destruct scanErr as [err|].
      { intros [= <- <-]. rewrite <- !app_assoc. eexists; (split; [done|]).
        events_ok. }
      destruct (loki_Flush env _) as [err|]; intros [= <- <-];
        rewrite <- !app_assoc; eexists; (split; [done|]); events_ok.
Qed.

(** ** Counting events *)

Lemma countEvents_app p tr1 tr2 :
  countEvents p (tr1 ++ tr2) = (countEvents p tr1 + countEvents p tr2)%nat.
Proof. unfold countEvents. by rewrite filter_app, length_app. Qed.

Lemma countEvents_nil p : countEvents p [] = 0%nat.
Proof. reflexivity. Qed.

Lemma countEvents_cons p e tr :
  countEvents p (e :: tr) = ((if p e then 1 else 0) + countEvents p tr)%nat.
Proof.
  unfold countEvents. destruct (p e) eqn:E.
  - by rewrite filter_cons_True.
  - rewrite filter_cons_False; [done | by rewrite E].
Qed.

Lemma countEvents_none p evs :
  Forall (fun e => p e = false) evs → countEvents p evs = 0%nat.
Proof.
  induction 1 as [|e evs He _ IH]; [done|].
  by rewrite countEvents_cons, He, IH.
Qed.

Lemma parseEvent_not p evs :
  (∀ e, parseEvent e = true → p e = false) →
  Forall (fun e => parseEvent e = true) evs → countEvents p evs = 0%nat.
Proof.
  intros Hp Hall. apply countEvents_none.
  eapply Forall_impl; [exact Hall | exact Hp].
Qed.

Lemma parseEvent_not_delete e : parseEvent e = true → isDelete e = false.
Proof. by destruct e. Qed.

(** [parseFile] leaves the three queue counts and the delete count as they
    are. *)
Lemma parseFile_counts env opts fn tr r tr' p :
  (∀ e, parseEvent e = true → p e = false) →
  parseFile env opts fn tr = (r, tr') →
  countEvents p tr' = countEvents p tr.
Proof.
  intros Hp (evs & -> & Hall)%parseFile_events.
  rewrite countEvents_app, (parseEvent_not p evs Hp Hall). lia.
Qed.

(** ** The loops of [Scan] and [Worker] *)

Lemma scanRange_stopped contents : ∀ num s tr,
  stop s = true → scanRange contents num s tr = (RangeDone num, s, tr).
Proof.
  induction contents as [|obj rest IH]; intros num s tr Hstop; [done|].
  cbn [scanRange]. rewrite Hstop. destruct (Key obj); by apply IH.
Qed.

(** While the pipeline is not stopped, the loop sends the keys of the
    objects it visits, in their order, until it is through or the queue is
    full. *)
Lemma scanRange_open contents : ∀ num o b c tr,
  ∃ visited rest,
    contents = visited ++ rest
    ∧ scanRange contents num (mkParser o (mkChan b c false) false) tr
      = (match rest with
         | [] => RangeDone (num + length (omap Key visited))
         | _ => RangeBlocked rest (num + length (omap Key visited))
         end,
         mkParser o (mkChan (b ++ omap Key visited) c false) false,
         tr ++ map EvSend (omap Key visited))
    ∧ (rest ≠ [] →
       (c ≤ length (b ++ omap Key visited))%nat
       ∧ ∃ obj key rest', rest = obj :: rest' ∧ Key obj = Some key).
Proof.
  induction contents as [|obj rest IH]; intros num o b c tr.
  - exists [], []. simpl. rewrite !app_nil_r, Nat.add_0_r. done.
  - cbn [scanRange stop queue]. destruct (Key obj) as [key|] eqn:Hkey.
    + unfold chanSend. cbn [closed buf cap].
      destruct (Nat.ltb_spec (length b) c) as [Hlt|Hge].
      * cbn [opts stop].
        destruct (IH (S num) o (b ++ [key]) c (tr ++ [EvSend key]))
          as (visited & rest' & -> & Heq & Hfull).
        exists (obj :: visited), rest'. cbn [omap list_omap]. rewrite Hkey.
        split; [done|]. rewrite Heq. cbn [length map].
        rewrite <- !app_assoc. cbn [app].
        replace (S num + length (omap Key visited))%nat
          with (num + S (length (omap Key visited)))%nat by lia.
        split; [done|]. intros Hne. destruct (Hfull Hne) as [Hc Hk].
        split; [by rewrite <- app_assoc in Hc | done].
      * exists [], (obj :: rest). simpl. rewrite !app_nil_r, Nat.add_0_r.
        split_and!; [done | done |]. intros _. split; [done | eauto].
    + destruct (IH num o b c tr) as (visited & rest' & -> & Heq & Hfull).
      exists (obj :: visited), rest'. cbn [omap list_omap]. rewrite Hkey.
      split; [done|]. by rewrite Heq.
Qed.

Lemma workerBody_events env o fn tr r tr' :
  workerBody env o fn tr = (r, tr') →
  ∃ evs, tr' = tr ++ evs ∧ Forall (fun e => bodyEvent e = true) evs.
Proof.
  unfold workerBody.
  destruct (parseFile env o fn tr) as [res trp] eqn:Hparse.
  destruct (parseFile_events _ _ _ _ _ _ Hparse) as (evs & -> & Hall).
  assert (Forall (fun e => bodyEvent e = true) evs) as Hall'.
  { eapply Forall_impl; [exact Hall|]. intros e He. unfold bodyEvent. by rewrite He. }
  destruct res as [[err|]|msg].
  - intros [= <- <-]. rewrite <- app_assoc. eexists; split; [done|]. events_ok.
  - destruct (s3_DeleteObject env _ _ _); intros [= <- <-];
      rewrite <- app_assoc; (eexists; split; [done|]); events_ok.
  - intros [= <- <-]. by exists evs.
Qed.

Lemma bodyEvent_not p evs :
  (∀ e, bodyEvent e = true → p e = false) →
  Forall (fun e => bodyEvent e = true) evs → countEvents p evs = 0%nat.
Proof.
  intros Hp Hall. apply countEvents_none.
  eapply Forall_impl; [exact Hall | exact Hp].
Qed.

Lemma bodyEvent_not_send e : bodyEvent e = true → isSend e = false.
Proof. by destruct e. Qed.
Lemma bodyEvent_not_recv e : bodyEvent e = true → isRecv e = false.
Proof. by destruct e. Qed.
Lemma bodyEvent_not_close e : bodyEvent e = true → isClose e = false.
Proof. by destruct e. Qed.

Lemma workerBody_counts env o fn tr r tr' p :
  (∀ e, bodyEvent e = true → p e = false) →
  workerBody env o fn tr = (r, tr') →
  countEvents p tr' = countEvents p tr.
Proof.
  intros Hp (evs & -> & Hall)%workerBody_events.
  rewrite countEvents_app, (bodyEvent_not p evs Hp Hall). lia.
Qed.

(** The loop of [Worker] receives the keys it takes off the buffer, and
    touches the queue in no other way. *)
Lemma workerRange_counts env o cl items : ∀ tr r items' tr',
  workerRange env o cl items tr = (r, items', tr') →
  ∃ taken,
    items = taken ++ items'
    ∧ countEvents isRecv tr' = (countEvents isRecv tr + length taken)%nat
    ∧ countEvents isSend tr' = countEvents isSend tr
    ∧ countEvents isClose tr' = countEvents isClose tr.
Proof.
  induction items as [|fn rest IH]; intros tr r items' tr'.
  - intros [= <- <- <-]. exists []. simpl. split_and!; [done | lia | done..].
  - cbn [workerRange].
    destruct (workerBody env o fn (tr ++ [EvRecv fn])) as [[res|] trb] eqn:Hbody.
    + intros [= <- <- <-]. exists [fn]. split; [done|].
      rewrite (workerBody_counts _ _ _ _ _ _ isRecv bodyEvent_not_recv Hbody),
        (workerBody_counts _ _ _ _ _ _ isSend bodyEvent_not_send Hbody),
        (workerBody_counts _ _ _ _ _ _ isClose bodyEvent_not_close Hbody).
      rewrite !countEvents_app, !countEvents_cons, !countEvents_nil. simpl.
      split_and!; lia.
    + intros (taken & -> & Hr & Hs & Hc)%IH.
      exists (fn :: taken). split; [done|].
      rewrite Hr, Hs, Hc.
      rewrite (workerBody_counts _ _ _ _ _ _ isRecv bodyEvent_not_recv Hbody),
        (workerBody_counts _ _ _ _ _ _ isSend bodyEvent_not_send Hbody),
        (workerBody_counts _ _ _ _ _ _ isClose bodyEvent_not_close Hbody).
      rewrite !countEvents_app, !countEvents_cons, !countEvents_nil. simpl.
      split_and!; lia.
Qed.

(** ** The invariant of the pipeline *)

Lemma countEvents_sends keys :
  countEvents isSend (map EvSend keys) = length keys
  ∧ countEvents isRecv (map EvSend keys) = 0%nat
  ∧ countEvents isClose (map EvSend keys) = 0%nat
  ∧ countEvents isList (map EvSend keys) = 0%nat.
Proof.
  induction keys as [|k keys (IH1 & IH2 & IH3 & IH4)]; [done|].
  cbn [map]. rewrite !countEvents_cons, IH1, IH2, IH3, IH4. done.
Qed.

Lemma NewParser_invariant o s : NewParser o = Val s → invariant o (s, []).
Proof.
  unfold NewParser. destruct (_ <? 0)%Z; [done|]. intros [= <-]. done.
Qed.

Lemma scanFrom_invariant o contents num s tr r s' tr' :
  invariant o (s, tr) →
  scanFrom contents num s tr = (r, s', tr') →
  invariant o (s', tr').
Proof.
  intros (Ho & Hcl & Hclose & Hq). unfold scanFrom. simpl in *.
  destruct (stop s) eqn:Hstop.
  - rewrite scanRange_stopped by done. intros [= <- <- <-].
    unfold invariant. simpl. rewrite Hstop.
    destruct (0 <? num)%nat; rewrite ?countEvents_app, ?countEvents_cons,
      ?countEvents_nil; simpl; split_and!; (done || lia).
  - destruct s as [o' [b c cl] st]. simpl in *. subst o cl st.
    destruct (scanRange_open contents num o' b c tr)
      as (visited & rest & -> & -> & _).
    destruct (countEvents_sends (omap Key visited)) as (Hs & Hr & Hc & _).
    assert (invariant o' (mkParser o' (mkChan (b ++ omap Key visited) c false) false,
                          tr ++ map EvSend (omap Key visited))) as Hinv.
    { unfold invariant. simpl. rewrite !countEvents_app, length_app, Hs, Hr, Hc.
      split_and!; (done || lia). }
    destruct rest as [|obj rest].
    + intros [= <- <- <-]. destruct (0 <? _)%nat; [|done].
      destruct Hinv as (? & ? & ? & ?). unfold invariant. simpl in *.
      rewrite !(countEvents_app _ (_ ++ _)), !countEvents_cons, !countEvents_nil.
      simpl. split_and!; (done || lia).
    + by intros [= <- <- <-].
Qed.

Lemma step_invariant env o st st' :
  invariant o st → step env st st' → invariant o st'.
Proof.
  intros Hinv Hstep.
  destruct Hstep as [s tr r s' tr' H | contents num s tr r s' tr' H
                    | s tr r s' tr' H | s tr fn rest r tr' Hbuf H
                    | s tr r s' tr' H | s tr w req w' s' tr' H].
  - unfold Scan in H. destruct (s3_ListObjectsV2 env tr _ _) as [err|contents].
    + injection H as <- <- <-. destruct Hinv as (? & ? & ? & ?).
      unfold invariant. simpl in *.
      rewrite !countEvents_app, !countEvents_cons, !countEvents_nil. simpl.
      split_and!; (done || lia).
    + eapply scanFrom_invariant; [|exact H].
      destruct Hinv as (? & ? & ? & ?). unfold invariant. simpl in *.
      rewrite !countEvents_app, !countEvents_cons, !countEvents_nil. simpl.
      split_and!; (done || lia).
  - by eapply scanFrom_invariant.
  - unfold Worker in H.
    destruct (workerRange env _ _ _ tr) as [[r0 items] tr0] eqn:Hrange.
    injection H as <- <- <-.
    destruct (workerRange_counts _ _ _ _ _ _ _ _ Hrange) as (taken & Hit & Hr & Hs & Hc).
    destruct Hinv as (? & ? & ? & Hq). unfold invariant. simpl in *.
    rewrite Hit, length_app in Hq. rewrite Hr, Hs, Hc.
    split_and!; (done || lia).
  - destruct Hinv as (? & ? & ? & Hq). unfold invariant. simpl in *.
    rewrite (workerBody_counts _ _ _ _ _ _ isRecv bodyEvent_not_recv H),
      (workerBody_counts _ _ _ _ _ _ isSend bodyEvent_not_send H),
      (workerBody_counts _ _ _ _ _ _ isClose bodyEvent_not_close H).
    rewrite Hbuf in Hq.
    rewrite !countEvents_app, !countEvents_cons, !countEvents_nil. simpl in *.
    split_and!; (done || lia).
  - unfold Stop in H. destruct Hinv as (? & Hcl & ? & ?). simpl in *.
    destruct (stop s) eqn:Hstop.
    + injection H as <- <- <-. unfold invariant. simpl. by rewrite Hstop.
    + simpl in H. rewrite Hcl in H. injection H as <- <- <-.
      unfold invariant. simpl.
      rewrite !countEvents_app, !countEvents_cons, !countEvents_nil. simpl.
      split_and!; (done || lia).
  - unfold Metrics in H. by injection H as <- <- <-.
Qed.

Lemma reachable_invariant env o st : reachable env o st → invariant o st.
Proof.
  induction 1 as [s Hnew | st st' _ IH Hstep].
  - by apply NewParser_invariant.
  - by eapply step_invariant.
Qed.

(** ** The label set *)

Lemma range_labels (base static : gmap string string) :
  map_fold (fun k v (labels : gmap string string) => <[k := v]> labels) base static
  = static ∪ base.
Proof.
  apply (map_fold_weak_ind
           (fun (r : gmap string string) (m : gmap string string) => r = m ∪ base)).
  - by rewrite (left_id_L ∅ (∪)).
  - intros k v m r _ ->. by rewrite insert_union_l.
Qed.

Lemma buildLabels_union o ns cf :
  buildLabels o ns cf = Labels o ∪ dynamicLabels o ns cf.
Proof.
  unfold buildLabels, dynamicLabels. cbv zeta. rewrite range_labels.
  f_equal.
Qed.

(** C6: for a key <namespace>/<sourceId>/<rest> the label set handed to the
    batch is the map of the four dynamic labels (namespace, cloudfront,
    cluster, index = <cluster>-<namespace>) with the configured labels laid
    over it: a configured label wins over a dynamic one of the same name,
    and every other dynamic label stays. *)
Theorem labels_static_override env o ns src rest tr :
  noSlash ns = true → noSlash src = true →
  let fn := ns +:+ "/" +:+ src +:+ "/" +:+ rest in
  let labels := Labels o ∪ dynamicLabels o ns src in
  buildLabels o ns src = labels
  ∧ (∃ r tl, parseFile env o fn tr = (r, tr ++ EvNewBatch labels :: tl))
  ∧ (∀ k v, Labels o !! k = Some v → labels !! k = Some v)
  ∧ (∀ k, Labels o !! k = None → labels !! k = dynamicLabels o ns src !! k)
  ∧ dynamicLabels o ns src !! "namespace" = Some ns
  ∧ dynamicLabels o ns src !! "cloudfront" = Some src
  ∧ dynamicLabels o ns src !! "cluster" = Some (ClusterName o)
  ∧ dynamicLabels o ns src !! "index" = Some (ClusterName o +:+ "-" +:+ ns)
  ∧ dom (dynamicLabels o ns src)
    = {[ "namespace"; "cloudfront"; "cluster"; "index" ]}.
Proof.
  intros Hns Hsrc fn labels. subst fn labels.
  assert (∃ segs, strings_Split (ns +:+ "/" +:+ src +:+ "/" +:+ rest) "/"
                  = ns :: src :: segs) as [segs Hsplit].
  { exists (strings_Split rest "/"). by rewrite !Split_app. }
  split_and!.
  - apply buildLabels_union.
  - destruct (parseFile env o _ tr) as [r tr'] eqn:Hparse.
    pose proof Hparse as Heq. rewrite (parseFile_eq _ _ _ _ _ _ _ Hsplit) in Heq.
    cbv zeta in Heq. rewrite buildLabels_union in Heq.
    destruct (scanLines_adds env
                match s3_GetObject env (tr ++ [EvNewBatch (Labels o ∪ dynamicLabels o ns src)])
                        (BucketName o) (ns +:+ "/" +:+ src +:+ "/" +:+ rest) with
                | GetOk (GzipLines lines _) => lines
                | _ => []
                end (mkW3CLog [] [])
                ((tr ++ [EvNewBatch (Labels o ∪ dynamicLabels o ns src)])
                   ++ [EvGetObject (BucketName o) (ns +:+ "/" +:+ src +:+ "/" +:+ rest)]))
      as (r0 & recs & Hscan & _).
    exists r. destruct (s3_GetObject env _ _ _) as [err | [err | lines scanErr]].
    + destruct (strings_Contains _ _); injection Heq as <- <-;
        rewrite <- !app_assoc; eexists; reflexivity.
    + injection Heq as <- <-. rewrite <- !app_assoc; eexists; reflexivity.
    + rewrite Hscan in Heq. destruct r0 as [err|].
      { injection Heq as <- <-. rewrite <- !app_assoc; eexists; reflexivity. }
      destruct scanErr as [err|].
      { injection Heq as <- <-. rewrite <- !app_assoc; eexists; reflexivity. }
      destruct (loki_Flush env _); injection Heq as <- <-;
        rewrite <- !app_assoc; eexists; reflexivity.
  - intros k v Hk. by apply lookup_union_Some_l.
  - intros k Hk. by rewrite lookup_union_r.
  - unfold dynamicLabels. by simplify_map_eq.
  - unfold dynamicLabels. by simplify_map_eq.
  - unfold dynamicLabels. by simplify_map_eq.
  - unfold dynamicLabels. by simplify_map_eq.
  - unfold dynamicLabels. rewrite !dom_insert_L, dom_singleton_L. set_solver.
Qed.

Lemma labels_static_override_witness :
  noSlash "teamA" = true ∧ noSlash "dist123" = true
  ∧ buildLabels Fixture.options "teamA" "dist123"
    = Labels Fixture.options ∪ dynamicLabels Fixture.options "teamA" "dist123".
Proof.
  split; [reflexivity | split; [reflexivity|]].
  exact (proj1 (labels_static_override Fixture.scenarioA Fixture.options
                  "teamA" "dist123" "2024010100.log.gz" [] eq_refl eq_refl)).
Defined.

(** ** Keys with fewer than two segments *)

Lemma parseFile_no_panic env o fn tr :
  (2 ≤ length (strings_Split fn "/"))%nat →
  ∃ r tr', parseFile env o fn tr = (Val r, tr').
Proof.
  intros (ns & cf & rest & Hsplit)%Split_two.
  rewrite (parseFile_eq _ _ _ _ _ _ _ Hsplit). cbv zeta.
  destruct (s3_GetObject env _ _ _) as [err | [err | lines scanErr]].
  - destruct (strings_Contains _ _); eauto.
  - eauto.
  - destruct (scanLines_adds env lines (mkW3CLog [] [])
                ((tr ++ [EvNewBatch (buildLabels o ns cf)])
                   ++ [EvGetObject (BucketName o) fn]))
      as (r0 & recs & -> & _).
    destruct r0 as [err|]; [eauto|].
    destruct scanErr as [err|]; [eauto|].
    destruct (loki_Flush env _); eauto.
Qed.

(** C10: [parseFile] reads the first and the second segment of the split
    key without a check of the length.  On a key with fewer than two
    segments (which is a key with no '/' in it) the read of the second
    segment is out of range and [parseFile] panics before it has called
    anything; on a key with at least two segments both reads are in range
    and [parseFile] returns. *)
Theorem parseFile_total_iff_two_segments env o fn tr :
  let parts := strings_Split fn "/" in
  ((length parts < 2)%nat ↔ noSlash fn = true)
  ∧ ((length parts < 2)%nat ↔
       parseFile env o fn tr = (Panic "index out of range [1] with length 1", tr))
  ∧ ((length parts < 2)%nat → is_Some (parts !! 0) ∧ parts !! 1 = None)
  ∧ ((2 ≤ length parts)%nat ↔ ∃ r tr', parseFile env o fn tr = (Val r, tr'))
  ∧ ((2 ≤ length parts)%nat → is_Some (parts !! 0) ∧ is_Some (parts !! 1)).
Proof.
  intros parts. subst parts.
  pose proof (Split_nonempty fn "/") as Hne.
  pose proof (Split_length_1 fn) as H1.
  assert ((length (strings_Split fn "/") < 2)%nat
          ↔ length (strings_Split fn "/") = 1%nat) as Hlt.
  { destruct (strings_Split fn "/"); [done | simpl; lia]. }
  split_and!.
  - by rewrite Hlt.
  - split; [apply parseFile_short|]. intros Hpanic.
    destruct (decide (length (strings_Split fn "/") < 2)%nat) as [?|Hge]; [done|].
    destruct (parseFile_no_panic env o fn tr) as (r & tr' & Hval); [lia|].
    congruence.
  - intros Hlen. destruct (strings_Split fn "/") as [|ns [|cf rest]];
      [done | by eauto | simpl in Hlen; lia].
  - split; [apply parseFile_no_panic|]. intros (r & tr' & Hval).
    destruct (decide (length (strings_Split fn "/") < 2)%nat) as [Hshort|?]; [|lia].
    rewrite parseFile_short in Hval by done. congruence.
  - intros Hlen. destruct (strings_Split fn "/") as [|ns [|cf rest]];
      [simpl in Hlen; lia | simpl in Hlen; lia | by eauto].
Qed.

Lemma parseFile_total_iff_two_segments_witness :
  parseFile Fixture.scenarioA Fixture.options "2024010100.log.gz" []
  = (Panic "index out of range [1] with length 1", [])
  ∧ ∃ r tr', parseFile Fixture.scenarioA Fixture.options Fixture.key []
             = (Val r, tr').
Proof.
  split.
  - apply (proj1 (proj1 (proj2 (parseFile_total_iff_two_segments
                    Fixture.scenarioA Fixture.options "2024010100.log.gz" [])))).
    vm_compute. lia.
  - apply (proj1 (proj1 (proj2 (proj2 (proj2 (parseFile_total_iff_two_segments
                    Fixture.scenarioA Fixture.options Fixture.key [])))))).
    vm_compute. lia.
Defined.

(** ** A fetch that fails *)

(** C4, as the code has it: the batch is made before the fetch.  When the
    fetch fails with an error whose text has "NoSuchKey" in it, [parseFile]
    returns success; the batch made for the label set of the key gets no
    line and is not flushed, and the one thing after the fetch is a debug
    log line.  On any other fetch error [parseFile] returns that error
    wrapped, again with nothing added and nothing flushed. *)
Theorem parseFile_fetch_error env o fn tr ns cf rest err :
  strings_Split fn "/" = ns :: cf :: rest →
  s3_GetObject env (tr ++ [EvNewBatch (buildLabels o ns cf)]) (BucketName o) fn
  = GetErr err →
  ∃ r evs,
    parseFile env o fn tr = (Val r, tr ++ evs)
    ∧ (if strings_Contains (error_Error err) "NoSuchKey"
       then r = None
            ∧ evs = [EvNewBatch (buildLabels o ns cf);
                     EvGetObject (BucketName o) fn;
                     EvLog LevelDebug "skipping non-existent file" [("key", fn)]]
       else r = Some (Wrap ("failed to get object " +:+ fn) err)
            ∧ evs = [EvNewBatch (buildLabels o ns cf);
                     EvGetObject (BucketName o) fn])
    ∧ countEvents isNewBatch evs = 1%nat
    ∧ batchAdds evs = []
    ∧ countEvents isFlush evs = 0%nat.
Proof.
  intros Hsplit Hget. rewrite (parseFile_eq _ _ _ _ _ _ _ Hsplit). cbv zeta.
  rewrite Hget. destruct (strings_Contains _ _); rewrite <- !app_assoc;
    eexists _, _; (split; [reflexivity|]); split_and!; done.
Qed.

Lemma parseFile_fetch_error_witness :
  ∃ r evs,
    parseFile Fixture.gone Fixture.options Fixture.key [] = (Val r, [] ++ evs)
    ∧ r = None ∧ batchAdds evs = [] ∧ countEvents isFlush evs = 0%nat.
Proof.
  destruct (parseFile_fetch_error Fixture.gone Fixture.options Fixture.key []
              "teamA" "dist123" ["2024010100.log.gz"] Fixture.noSuchKey
              eq_refl eq_refl)
    as (r & evs & Hrun & Hcase & _ & Hadds & Hflush).
  exists r, evs. split_and!; [exact Hrun | exact (proj1 Hcase) | exact Hadds | exact Hflush].
Defined.

(** C4 as stated fails: on a key that is gone [parseFile] returns success
    with nothing added and nothing flushed, but a batch has been made. *)
Lemma parseFile_gone_makes_batch :
  (parseFile Fixture.gone Fixture.options Fixture.key []).1 = Val None
  ∧ countEvents isNewBatch (parseFile Fixture.gone Fixture.options Fixture.key []).2
    = 1%nat
  ∧ ¬ countEvents isNewBatch (parseFile Fixture.gone Fixture.options Fixture.key []).2
      = 0%nat.
Proof. vm_compute. split_and!; [reflexivity | reflexivity | discriminate]. Qed.

(** ** Which lines are parsed *)

Lemma scanLines_before_header env lines : ∀ w tr,
  HeaderFields w = [] →
  Forall (fun line => strings_HasPrefix line "#Fields:" = false) lines →
  scanLines env lines w tr = (Val None, tr).
Proof.
  induction lines as [|line rest IH]; intros w tr Hw Hall; [done|].
  apply Forall_cons_1 in Hall as [Hd Hall].
  rewrite scanLines_skip by auto. by apply IH.
Qed.

Lemma scanLines_comments env lines : ∀ w tr,
  Forall (fun line => strings_HasPrefix line "#Fields:" = false
                      ∧ strings_HasPrefix line "#" = true) lines →
  scanLines env lines w tr = (Val None, tr).
Proof.
  induction lines as [|line rest IH]; intros w tr Hall; [done|].
  apply Forall_cons_1 in Hall as [[Hd Hc] Hall].
  rewrite scanLines_skip by auto. by apply IH.
Qed.

(** C5: in the scan loop a line is handed to [parseDataLine] only when it
    does not start with '#' and the header fields are not empty.  A line
    that starts with "#Fields:" sets the header fields to the tokens of the
    line after its first token, which is the one that starts with
    "#Fields:" (and is "#Fields:" itself when white space follows the
    directive).  Any other line that starts with '#', and any line read
    while the header fields are empty, is skipped: nothing is added, no
    error is returned, the header is as before; so a stretch of lines before
    the first header directive, and a stretch of comment lines, leave no
    trace at all. *)
Theorem scanLines_line_classes env line rest w tr :
  (strings_HasPrefix line "#Fields:" = true →
     ∃ tok fields,
       strings_Fields line = tok :: fields
       ∧ strings_HasPrefix tok "#Fields:" = true
       ∧ scanLines env (line :: rest) w tr
         = scanLines env rest (mkW3CLog fields (Records w)) tr)
  ∧ (∀ c after, asciiSpace c = true →
       strings_Fields ("#Fields:" +:+ String c after)
       = "#Fields:" :: strings_Fields after)
  ∧ (strings_HasPrefix line "#Fields:" = false →
     strings_HasPrefix line "#" = true ∨ HeaderFields w = [] →
     scanLines env (line :: rest) w tr = scanLines env rest w tr)
  ∧ (∀ lines,
       HeaderFields w = [] →
       Forall (fun l => strings_HasPrefix l "#Fields:" = false) lines →
       scanLines env lines w tr = (Val None, tr))
  ∧ (∀ lines,
       Forall (fun l => strings_HasPrefix l "#Fields:" = false
                        ∧ strings_HasPrefix l "#" = true) lines →
       scanLines env lines w tr = (Val None, tr))
  ∧ (strings_HasPrefix line "#" = false → HeaderFields w ≠ [] →
     scanLines env (line :: rest) w tr
     = match parseDataLine line (HeaderFields w) with
       | Panic msg => (Panic msg, tr)
       | Val (inr err) => (Val (Some (Wrap "error parsing data line" err)), tr)
       | Val (inl entry) =>
           match loki_Add env tr (json_Marshal env entry) with
           | Some err => (Val (Some (Wrap "failed to send batch" err)),
                          tr ++ [EvBatchAdd (json_Marshal env entry)])
           | None => scanLines env rest w
                       (tr ++ [EvBatchAdd (json_Marshal env entry)])
           end
       end).
Proof.
  split_and!.
  - intros Hd. destruct (Fields_directive_head line Hd) as (tok & fields & Hf & Ht).
    exists tok, fields. split_and!; [done | done |].
    rewrite scanLines_directive by done. by rewrite Hf.
  - intros c after Hc. by apply Fields_directive_space.
  - intros Hd Hs. by rewrite scanLines_skip.
  - intros lines Hw Hall. by apply scanLines_before_header.
  - intros lines Hall. by apply scanLines_comments.
  - intros Hc Hh.
    destruct (parseDataLine line (HeaderFields w)) as [[entry|err]|msg] eqn:Hp.
    + by apply scanLines_good.
    + cbn [scanLines]. rewrite (comment_not_directive _ Hc), Hc.
      destruct (HeaderFields w) as [|h hdr] eqn:E; [done|].
      cbn [orb length Nat.eqb]. by rewrite Hp.
    + by apply parseDataLine_no_panic in Hp.
Qed.

Lemma scanLines_line_classes_witness :
  ∃ tok fields,
    strings_Fields "#Fields: date time c-ip" = tok :: fields
    ∧ strings_HasPrefix tok "#Fields:" = true
    ∧ scanLines Fixture.scenarioA ["#Fields: date time c-ip"] (mkW3CLog [] []) []
      = scanLines Fixture.scenarioA [] (mkW3CLog fields []) [].
Proof.
  apply (proj1 (scanLines_line_classes Fixture.scenarioA
                  "#Fields: date time c-ip" [] (mkW3CLog [] []) [])).
  reflexivity.
Defined.

(** ** Well-formed files *)

Lemma batchAdds_app evs1 evs2 :
  batchAdds (evs1 ++ evs2) = batchAdds evs1 ++ batchAdds evs2.
Proof. apply omap_app. Qed.

Lemma NoDup_lookup_last (l : list string) i name :
  NoDup l → l !! i = Some name → name ∉ drop (S i) l.
Proof.
  intros Hnd Hi. rewrite <- (take_drop_middle l i name Hi) in Hnd.
  apply NoDup_app in Hnd as (_ & _ & Hnd). by apply NoDup_cons in Hnd as [? _].
Qed.

(** When the names of the header are pairwise distinct, the record maps
    the i-th name to the i-th token. *)
Lemma recordOf_NoDup d entry i name :
  recordOf d entry → NoDup d.1 → d.1 !! i = Some name →
  entry !! name = strings_Fields d.2 !! i.
Proof.
  intros (_ & _ & Hlast) Hnd Hi. apply Hlast; [done|]. by apply NoDup_lookup_last.
Qed.

(** C1, as the code has it: on a file in which every data line is read
    under a header that names at least one field and has as many tokens as
    the header has names, fetched and unpacked without error and shipped to
    a sink that takes every line, [parseFile] adds to the batch exactly one
    line per data line, in the order of the file: the JSON of a record
    whose keys are the header names and which maps each name to the token
    at the last place where the header has that name, so the i-th name to
    the i-th token when the names are pairwise distinct.  If also the
    scanner and the flush report no error, [parseFile] returns success. *)
Theorem parseFile_wellFormed env o fn tr ns cf rest lines scanErr :
  strings_Split fn "/" = ns :: cf :: rest →
  s3_GetObject env (tr ++ [EvNewBatch (buildLabels o ns cf)]) (BucketName o) fn
  = GetOk (GzipLines lines scanErr) →
  wellFormed lines →
  (∀ tr' line, loki_Add env tr' line = None) →
  ∃ r evs recs,
    parseFile env o fn tr = (Val r, tr ++ evs)
    ∧ Forall2 recordOf (dataLines [] lines) recs
    ∧ batchAdds evs = map (json_Marshal env) recs
    ∧ length (batchAdds evs) = length (dataLines [] lines)
    ∧ (∀ k d entry, dataLines [] lines !! k = Some d → recs !! k = Some entry →
         dom entry = list_to_set d.1
         ∧ (∀ i name, d.1 !! i = Some name → name ∉ drop (S i) d.1 →
              entry !! name = strings_Fields d.2 !! i)
         ∧ (NoDup d.1 → ∀ i name, d.1 !! i = Some name →
              entry !! name = strings_Fields d.2 !! i))
    ∧ (scanErr = None → (∀ tr', loki_Flush env tr' = None) → r = None).
Proof.
  intros Hsplit Hget Hwf Hsink.
  rewrite (parseFile_eq _ _ _ _ _ _ _ Hsplit). cbv zeta. rewrite Hget.
  destruct (scanLines_wellFormed env lines (mkW3CLog [] [])
              ((tr ++ [EvNewBatch (buildLabels o ns cf)])
                 ++ [EvGetObject (BucketName o) fn]) Hsink Hwf)
    as (recs & -> & Hrecs).
  assert (∀ k d entry, dataLines [] lines !! k = Some d → recs !! k = Some entry →
            recordOf d entry) as Hk.
  { intros k d entry Hd He. by eapply Forall2_lookup_lr. }
  assert (∃ r tl,
    match scanErr with
    | Some err => (Val (Some err),
                   ((tr ++ [EvNewBatch (buildLabels o ns cf)])
                      ++ [EvGetObject (BucketName o) fn]) ++ addEvents env recs)
    | None =>
        match loki_Flush env
                ((((tr ++ [EvNewBatch (buildLabels o ns cf)])
                     ++ [EvGetObject (BucketName o) fn]) ++ addEvents env recs)
                   ++ [EvPrintf ("Parsed " +:+ fn +:+ newline)]) with
        | Some err =>
            (Val (Some (Wrap "failed to flush batch" err)),
             ((((tr ++ [EvNewBatch (buildLabels o ns cf)])
                  ++ [EvGetObject (BucketName o) fn]) ++ addEvents env recs)
                ++ [EvPrintf ("Parsed " +:+ fn +:+ newline)]) ++ [EvBatchFlush])
        | None =>
            (Val None,
             ((((tr ++ [EvNewBatch (buildLabels o ns cf)])
                  ++ [EvGetObject (BucketName o) fn]) ++ addEvents env recs)
                ++ [EvPrintf ("Parsed " +:+ fn +:+ newline)])
               ++ [EvBatchFlush;
                   EvLog LevelDebug "shipped file" [("key", fn); ("lines", fmt_d 0)]])
        end
    end
    = (Val r, tr ++ ([EvNewBatch (buildLabels o ns cf);
                      EvGetObject (BucketName o) fn] ++ addEvents env recs) ++ tl)
    ∧ batchAdds tl = []
    ∧ (scanErr = None → (∀ tr', loki_Flush env tr' = None) → r = None))
    as (r & tl & -> & Htl & Hr).
  { destruct scanErr as [err|].
    - exists (Some err), []. rewrite <- !app_assoc, app_nil_r. done.
    - destruct (loki_Flush env _) as [err|] eqn:Hflush.
      + eexists _, _. rewrite <- !app_assoc. split; [reflexivity|].
        split; [done|]. intros _ Hall. by rewrite Hall in Hflush.
      + eexists _, _. rewrite <- !app_assoc. split; [reflexivity|]. done. }
  exists r, (([EvNewBatch (buildLabels o ns cf); EvGetObject (BucketName o) fn]
                ++ addEvents env recs) ++ tl), recs.
  assert (batchAdds (([EvNewBatch (buildLabels o ns cf);
                       EvGetObject (BucketName o) fn] ++ addEvents env recs) ++ tl)
          = map (json_Marshal env) recs) as Hadds.
  { rewrite !batchAdds_app, Htl, app_nil_r, batchAdds_addEvents. done. }
  split_and!; [done | done | done | | | done].
  - rewrite Hadds, length_map. symmetry. by eapply Forall2_length.
  - intros k d entry Hd He. pose proof (Hk k d entry Hd He) as Hrec.
    split_and!; [apply Hrec | apply Hrec |].
    intros Hnd i name Hi. by eapply recordOf_NoDup.
Qed.

Lemma parseFile_wellFormed_witness :
  wellFormed ["#Version: 1.0"; "#Fields: date time c-ip";
              "2024-01-01 00:00:00 1.2.3.4"]
  ∧ ∃ r evs recs,
      parseFile Fixture.scenarioA Fixture.options Fixture.key [] = (Val r, [] ++ evs)
      ∧ batchAdds evs = map (json_Marshal Fixture.scenarioA) recs
      ∧ length (batchAdds evs) = 1%nat.
Proof.
  assert (wellFormed ["#Version: 1.0"; "#Fields: date time c-ip";
                      "2024-01-01 00:00:00 1.2.3.4"]) as Hwf.
  { unfold wellFormed. vm_compute dataLines.
    constructor; [split; [discriminate | reflexivity] | constructor]. }
  split; [exact Hwf|].
  destruct (parseFile_wellFormed Fixture.scenarioA Fixture.options Fixture.key []
              "teamA" "dist123" ["2024010100.log.gz"] _ None
              eq_refl eq_refl Hwf (fun _ _ => eq_refl))
    as (r & evs & recs & Hrun & _ & Hadds & Hlen & _).
  exists r, evs, recs. split_and!; [exact Hrun | exact Hadds | exact Hlen].
Defined.

(** C1 as stated fails in two places.  Under a header that names a field
    twice, the record maps the name to the later token, so the first name
    is not mapped to the first token.  And after a header directive that
    names no field, an empty line has as many tokens as the header has
    names, yet it is skipped: one data line, nothing added. *)
Lemma parseFile_wellFormed_as_stated_fails :
  (dataLines [] ["#Fields: a a"; "1 2"] = [(["a"; "a"], "1 2")]
   ∧ length (strings_Fields "1 2") = length ["a"; "a"]
   ∧ ["a"; "a"] !! 0%nat = Some "a"
   ∧ strings_Fields "1 2" !! 0%nat = Some "1"
   ∧ parseDataLine "1 2" ["a"; "a"] = Val (inl {[ "a" := "2" ]})
   ∧ ({[ "a" := "2" ]} : gmap string string) !! "a" ≠ Some "1"
   ∧ batchAdds (parseFile Fixture.twice Fixture.options Fixture.key []).2
     = [json_Marshal Fixture.twice {[ "a" := "2" ]}])
  ∧ (dataLines [] ["#Fields:"; EmptyString] = [([], EmptyString)]
     ∧ length (strings_Fields EmptyString) = length (tail (strings_Fields "#Fields:"))
     ∧ (parseFile Fixture.nameless Fixture.options Fixture.key []).1 = Val None
     ∧ batchAdds (parseFile Fixture.nameless Fixture.options Fixture.key []).2 = []
     ∧ length (batchAdds (parseFile Fixture.nameless Fixture.options Fixture.key []).2)
       ≠ length (dataLines [] ["#Fields:"; EmptyString])).
Proof.
  split.
  - split_and!; [reflexivity | reflexivity | reflexivity | reflexivity
                | by vm_compute | by vm_compute | by vm_compute].
  - split_and!; [reflexivity | reflexivity | by vm_compute | by vm_compute
                | by vm_compute].
Qed.

(** ** A data line with the wrong number of tokens *)

Lemma addEvents_count env recs p :
  (∀ line, p (EvBatchAdd line) = false) →
  countEvents p (addEvents env recs) = 0%nat.
Proof.
  intros Hp. induction recs as [|entry recs IH]; [done|].
  by rewrite addEvents_cons, countEvents_cons, Hp, IH.
Qed.




(** ** The [Worker] loop *)

Lemma Worker_cons env s tr fn rest :
  buf (queue s) = fn :: rest →
  Worker env s tr
  = match workerBody env (opts s) fn (tr ++ [EvRecv fn]) with
    | (Some r, tr') =>
        (r, mkParser (opts s) (mkChan rest (cap (queue s)) (closed (queue s))) (stop s),
         tr')
    | (None, tr') =>
        Worker env
          (mkParser (opts s) (mkChan rest (cap (queue s)) (closed (queue s))) (stop s))
          tr'
    end.
Proof.
  intros Hbuf. unfold Worker. rewrite Hbuf. cbn [workerRange].
  by destruct (workerBody env (opts s) fn (tr ++ [EvRecv fn])) as [[r|] tr'].
Qed.

(** ** [Stop] *)

Lemma Stop_stopped s tr : stop s = true → Stop s tr = (Val tt, s, tr).
Proof. intros H. unfold Stop. by rewrite H. Qed.

Lemma StopTimes_stopped n : ∀ s tr,
  stop s = true → StopTimes n s tr = (Val tt, s, tr).
Proof.
  induction n as [|n IH]; intros s tr Hstop; [done|].
  cbn [StopTimes]. rewrite Stop_stopped by done. by apply IH.
Qed.

(** C8: in any state a pipeline can reach, [Stop] called n times in a row,
    n at least 1, ends in the state one call ends in, and no call panics on
    a channel that is closed already.  In that state [stop] is set and the
    queue is closed, its buffer is as it was, and the channel has been
    closed exactly once in the whole run: by the first call if the pipeline
    was not stopped yet (the one event that call adds), by none of them if
    it was. *)
Theorem Stop_idempotent env o s tr n :
  reachable env o (s, tr) →
  (1 ≤ n)%nat →
  ∃ s' tr',
    Stop s tr = (Val tt, s', tr')
    ∧ StopTimes n s tr = (Val tt, s', tr')
    ∧ stop s' = true
    ∧ closed (queue s') = true
    ∧ buf (queue s') = buf (queue s)
    ∧ tr' = (if stop s then tr else tr ++ [EvClose])
    ∧ countEvents isClose tr' = 1%nat
    ∧ reachable env o (s', tr').
Proof.
  intros Hreach Hn.
  destruct (reachable_invariant _ _ _ Hreach) as (Ho & Hcl & Hclose & Hq).
  simpl in *. destruct n as [|n]; [lia|]. cbn [StopTimes].
  assert (∃ s' tr', Stop s tr = (Val tt, s', tr')
                    ∧ stop s' = true ∧ closed (queue s') = true
                    ∧ buf (queue s') = buf (queue s)
                    ∧ tr' = (if stop s then tr else tr ++ [EvClose])
                    ∧ countEvents isClose tr' = 1%nat)
    as (s' & tr' & Hstop & Hs & Hc & Hb & Htr & Hcount).
  { unfold Stop. destruct (stop s) eqn:E.
    - exists s, tr. by rewrite E, <- Hcl in *.
    - simpl. rewrite Hcl. eexists _, _. split; [reflexivity|]. simpl.
      rewrite countEvents_app, Hclose, countEvents_cons, countEvents_nil. done. }
  exists s', tr'. rewrite Hstop.
  split_and!; [done | by apply StopTimes_stopped | done | done | done | done | done |].
  eapply reachable_step; [exact Hreach|]. by eapply step_Stop.
Qed.

Lemma Stop_idempotent_witness :
  ∃ s' tr',
    Stop Fixture.parser [] = (Val tt, s', tr')
    ∧ StopTimes 3 Fixture.parser [] = (Val tt, s', tr')
    ∧ countEvents isClose tr' = 1%nat.
Proof.
  destruct (Stop_idempotent Fixture.scenarioA Fixture.options Fixture.parser [] 3)
    as (s' & tr' & H1 & H2 & _ & _ & _ & _ & H3 & _).
  - apply reachable_new. vm_compute. reflexivity.
  - lia.
  - exists s', tr'. split_and!; [exact H1 | exact H2 | exact H3].
Defined.

(** ** [Metrics] *)

(** The text [%d] prints reads back as the number printed. *)
Lemma fmt_d_reads_back n :
  ∃ d, NilZero.uint_of_string (fmt_d n) = Some d ∧ Nat.of_uint d = n.
Proof.
  unfold fmt_d. destruct (Nat.to_uint n) eqn:E;
    try (eexists; split; [apply NilZero.usu; discriminate|];
         rewrite <- E; apply DecimalNat.Unsigned.of_to).
  exists Decimal.zero. split; [reflexivity|].
  rewrite <- (DecimalNat.Unsigned.of_to n), E. reflexivity.
Qed.

(** C9: in any state a pipeline can reach, the metrics handler leaves the
    parser and the trace as they are, sets the content type to
    text/plain; charset=utf-8 and writes the one line
    "cloudfront_logs_shipper_queue_length <n>", where n, in decimal, is the
    length of the buffer of the queue, which is the number of keys sent to
    the queue less the number received from it. *)
Theorem Metrics_queue_length env o s tr w req :
  reachable env o (s, tr) →
  ∃ w',
    let n := length (buf (queue s)) in
    Metrics s tr w req = (w', s, tr)
    ∧ Header w' !! "Content-Type" = Some ["text/plain; charset=utf-8"]
    ∧ (∀ h, h ≠ "Content-Type" → Header w' !! h = Header w !! h)
    ∧ written w'
      = written w +:+ "cloudfront_logs_shipper_queue_length " +:+ fmt_d n +:+ newline
    ∧ (∃ d, NilZero.uint_of_string (fmt_d n) = Some d ∧ Nat.of_uint d = n)
    ∧ n = (countEvents isSend tr - countEvents isRecv tr)%nat
    ∧ (countEvents isRecv tr ≤ countEvents isSend tr)%nat.
Proof.
  intros Hreach.
  destruct (reachable_invariant _ _ _ Hreach) as (_ & _ & _ & Hq). simpl in Hq.
  eexists. cbv zeta. split; [reflexivity|]. cbn [Header written].
  split_and!.
  - apply lookup_insert_eq.
  - intros h Hh. by apply lookup_insert_ne.
  - reflexivity.
  - apply fmt_d_reads_back.
  - lia.
  - lia.
Qed.

Lemma Metrics_queue_length_witness :
  ∃ w',
    Metrics Fixture.parser [] (mkResponseWriter ∅ EmptyString) (mkRequest "GET" "/metrics")
    = (w', Fixture.parser, [])
    ∧ written w' = "cloudfront_logs_shipper_queue_length 0" +:+ newline.
Proof.
  destruct (Metrics_queue_length Fixture.scenarioA Fixture.options Fixture.parser []
              (mkResponseWriter ∅ EmptyString) (mkRequest "GET" "/metrics"))
    as (w' & H1 & _ & _ & H2 & _).
  - apply reachable_new. vm_compute. reflexivity.
  - exists w'. split; [exact H1 | exact H2].
Defined.

(** ** One turn of the [Worker] loop *)

(** C3: for the key [fn] a [Worker] takes off the queue, a delete request
    for [fn] is among the events of that turn of the loop exactly when
    [parseFile] returned success, and [parseFile] itself deletes nothing.
    When [parseFile] returns an error, the turn logs it and [Worker] returns
    that error at once: the keys still in the queue stay there.  When
    [parseFile] succeeds, [Worker] goes on with the rest of the queue
    whether the delete succeeds or fails; a failed delete adds a log line
    and nothing else, and [fn] is not put back on the queue.  (A panic of
    [parseFile] ends the [Worker] as well, without a delete.) *)
Theorem Worker_delete_iff_parse_ok env s tr fn rest r trp :
  buf (queue s) = fn :: rest →
  parseFile env (opts s) fn (tr ++ [EvRecv fn]) = (r, trp) →
  ∃ evs,
    let s' := mkParser (opts s) (mkChan rest (cap (queue s)) (closed (queue s)))
                       (stop s) in
    let delete := EvDeleteObject (BucketName (opts s)) fn in
    (delete ∈ evs ↔ r = Val None)
    ∧ countEvents isDelete evs
      = (match r with Val None => 1 | _ => 0 end)%nat
    ∧ countEvents isDelete trp = countEvents isDelete tr
    ∧ countEvents isGet evs = 0%nat
    ∧ match r with
      | Val (Some err) =>
          evs = [EvLog LevelError "failed to ship file"
                   [("key", fn); ("err", error_Error err)]]
          ∧ Worker env s tr = (WorkerReturn (Some err), s', trp ++ evs)
      | Val None =>
          Worker env s tr = Worker env s' (trp ++ evs)
          ∧ match s3_DeleteObject env trp (BucketName (opts s)) fn with
            | None => evs = [delete]
            | Some err =>
                evs = [delete;
                       EvLog LevelError "failed to delete file"
                         [("key", fn); ("err", error_Error err)]]
            end
      | Panic msg =>
          evs = [] ∧ Worker env s tr = (WorkerPanic msg, s', trp ++ evs)
      end.
Proof.
  intros Hbuf Hparse. cbv zeta.
  assert (countEvents isDelete trp = countEvents isDelete tr) as Hcount.
  { rewrite (parseFile_counts _ _ _ _ _ _ isDelete parseEvent_not_delete Hparse).
    rewrite countEvents_app, countEvents_cons, countEvents_nil. simpl. lia. }
  rewrite (Worker_cons _ _ _ _ _ Hbuf). unfold workerBody. rewrite Hparse.
  destruct r as [[err|]|msg].
  - exists [EvLog LevelError "failed to ship file"
              [("key", fn); ("err", error_Error err)]].
    split.
    { split; [|done]. intros Hin. by apply list_elem_of_singleton in Hin. }
    split; [reflexivity|]. split; [done|]. split; [reflexivity|].
    split; reflexivity.
  - destruct (s3_DeleteObject env trp (BucketName (opts s)) fn) as [err|].
    + exists [EvDeleteObject (BucketName (opts s)) fn;
              EvLog LevelError "failed to delete file"
                [("key", fn); ("err", error_Error err)]].
      split.
      { split; [done|]. intros _. apply list_elem_of_here. }
      split; [reflexivity|]. split; [done|]. split; [reflexivity|].
      split; reflexivity.
    + exists [EvDeleteObject (BucketName (opts s)) fn]. split.
      { split; [done|]. intros _. apply list_elem_of_here. }
      split; [reflexivity|]. split; [done|]. split; [reflexivity|].
      split; reflexivity.
  - exists []. split.
    { split; [|done]. intros Hin. by apply elem_of_nil in Hin. }
    split; [reflexivity|]. split; [done|]. split; [reflexivity|].
    split; [reflexivity | by rewrite app_nil_r].
Qed.

Lemma Worker_delete_iff_parse_ok_witness :
  (∃ evs,
     Worker Fixture.scenarioA
            (mkParser Fixture.options (mkChan [Fixture.key] 20 false) false) []
     = Worker Fixture.scenarioA
              (mkParser Fixture.options (mkChan [] 20 false) false)
              ((parseFile Fixture.scenarioA Fixture.options Fixture.key
                          [EvRecv Fixture.key]).2 ++ evs)
     ∧ countEvents isDelete evs = 1%nat)
  ∧ (∃ evs,
       Worker Fixture.scenarioB
              (mkParser Fixture.options (mkChan [Fixture.key] 20 false) false) []
       = (WorkerReturn
            (Some (Wrap "error parsing data line" (FieldCountMismatch 3 2))),
          mkParser Fixture.options (mkChan [] 20 false) false,
          (parseFile Fixture.scenarioB Fixture.options Fixture.key
                     [EvRecv Fixture.key]).2 ++ evs)
       ∧ countEvents isDelete evs = 0%nat).
Proof.
  split.
  - destruct (Worker_delete_iff_parse_ok Fixture.scenarioA
                (mkParser Fixture.options (mkChan [Fixture.key] 20 false) false)
                [] Fixture.key [] (Val None)
                (parseFile Fixture.scenarioA Fixture.options Fixture.key
                           [EvRecv Fixture.key]).2 eq_refl)
      as (evs & _ & Hcount & _ & _ & Hrun & _).
    + vm_compute. reflexivity.
    + exists evs. split; [exact Hrun | exact Hcount].
  - destruct (Worker_delete_iff_parse_ok Fixture.scenarioB
                (mkParser Fixture.options (mkChan [Fixture.key] 20 false) false)
                [] Fixture.key []
                (Val (Some (Wrap "error parsing data line" (FieldCountMismatch 3 2))))
                (parseFile Fixture.scenarioB Fixture.options Fixture.key
                           [EvRecv Fixture.key]).2 eq_refl)
      as (evs & _ & Hcount & _ & _ & _ & Hrun).
    + vm_compute. reflexivity.
    + exists evs. split; [exact Hrun | exact Hcount].
Defined.

(** ** The scenarios of the specification, run *)

(** Scenario A: one record is shipped, the batch is flushed, the object is
    deleted, and the [Worker] waits for the next key. *)
Example scenarioA_ships_and_deletes :
  ∃ s tr,
    Worker Fixture.scenarioA
           (mkParser Fixture.options (mkChan [Fixture.key] 20 false) false) []
    = (WorkerBlocked, s, tr)
    ∧ buf (queue s) = []
    ∧ batchAdds tr
      = [Fixture.marshal {[ "date" := "2024-01-01"; "time" := "00:00:00";
                            "c-ip" := "1.2.3.4" ]}]
    ∧ countEvents isFlush tr = 1%nat
    ∧ last tr = Some (EvDeleteObject "logs" Fixture.key).
Proof. eexists _, _. split; [by vm_compute|]. by vm_compute. Qed.

(** Scenario B: the line with two tokens ends the file; the line before it
    has been added, nothing is flushed or deleted, and the [Worker]
    returns the error. *)
Example scenarioB_aborts :
  ∃ s tr,
    Worker Fixture.scenarioB
           (mkParser Fixture.options (mkChan [Fixture.key; "teamA/dist123/next.gz"] 20 false)
                     false) []
    = (WorkerReturn (Some (Wrap "error parsing data line" (FieldCountMismatch 3 2))),
       s, tr)
    ∧ buf (queue s) = ["teamA/dist123/next.gz"]
    ∧ length (batchAdds tr) = 1%nat
    ∧ countEvents isFlush tr = 0%nat
    ∧ countEvents isDelete tr = 0%nat.
Proof. eexists _, _. split; [by vm_compute|]. by vm_compute. Qed.

(** A delete that fails is logged, and the [Worker] goes on. *)
Example failed_delete_goes_on :
  ∃ s tr,
    Worker (Fixture.keeps Fixture.scenarioA)
           (mkParser Fixture.options (mkChan [Fixture.key; Fixture.key] 20 true) true) []
    = (WorkerReturn None, s, tr)
    ∧ countEvents isDelete tr = 2%nat
    ∧ countEvents isGet tr = 2%nat.
Proof. eexists _, _. split; [by vm_compute|]. by vm_compute. Qed.

(** White space outside ASCII separates fields as well: here a no-break
    space, U+00A0, in UTF-8. *)
Example Fields_no_break_space :
  strings_Fields ("a" +:+ String "194" (String "160" "b")) = ["a"; "b"].
Proof. reflexivity. Qed.

Example Split_key :
  strings_Split Fixture.key "/" = ["teamA"; "dist123"; "2024010100.log.gz"]
  ∧ strings_Split EmptyString "/" = [EmptyString].
Proof. split; reflexivity. Qed.

(** A full queue makes [Scan] wait, with the objects still to send. *)
Example Scan_waits_on_full_queue :
  Scan Fixture.scenarioA (mkParser Fixture.options (mkChan ["a/b/c"] 1 false) false) []
  = (ScanBlocked [mkObject (Some Fixture.key); mkObject None] 0,
     mkParser Fixture.options (mkChan ["a/b/c"] 1 false) false,
     [EvListObjectsV2 "logs" 100]).
Proof. reflexivity. Qed.

(** ** [Scan] *)

(** The loop of [Scan] and what follows it, in a pipeline that is not
    stopped: the keys of the visited objects are sent in order; the loop
    is through, or waits at a full queue. *)
Lemma scanFrom_open contents num o b c tr :
  ∃ visited rest log,
    contents = visited ++ rest
    ∧ scanFrom contents num (mkParser o (mkChan b c false) false) tr
      = (match rest with
         | [] => ScanReturn None
         | _ => ScanBlocked rest (num + length (omap Key visited))
         end,
         mkParser o (mkChan (b ++ omap Key visited) c false) false,
         tr ++ map EvSend (omap Key visited) ++ log)
    ∧ countEvents isList log = 0%nat
    ∧ countEvents isSend log = 0%nat
    ∧ (rest ≠ [] →
       log = []
       ∧ (c ≤ length (b ++ omap Key visited))%nat
       ∧ ∃ obj key rest', rest = obj :: rest' ∧ Key obj = Some key)
    ∧ ((length b + length (omap Key contents) ≤ c)%nat →
       rest = [] ∧ visited = contents).
Proof.
  unfold scanFrom.
  destruct (scanRange_open contents num o b c tr)
    as (visited & rest & Hcontents & -> & Hfull).
  destruct rest as [|obj rest].
  - exists visited, [],
      (if (0 <? num + length (omap Key visited))%nat
       then [EvLog LevelInfo "new files"
               [("found", fmt_d (num + length (omap Key visited)));
                ("queue", fmt_d (length (b ++ omap Key visited)))]]
       else []).
    split; [done|]. split.
    { cbn [queue buf]. destruct (0 <? _)%nat;
        [by rewrite <- app_assoc | by rewrite app_nil_r]. }
    split_and!.
    + by destruct (0 <? _)%nat.
    + by destruct (0 <? _)%nat.
    + done.
    + intros _. by rewrite Hcontents, app_nil_r.
  - exists visited, (obj :: rest), []. split; [done|]. split.
    { by rewrite app_nil_r. }
    destruct Hfull as (Hc & obj' & key & rest' & [= <- <-] & Hkey); [done|].
    split_and!; [done | done | |].
    + intros _. split_and!; [done | done | eauto].
    + intros Hroom. exfalso. rewrite Hcontents in Hroom.
      rewrite omap_app, !length_app in Hroom. rewrite length_app in Hc.
      cbn [omap list_omap] in Hroom. rewrite Hkey in Hroom. simpl in Hroom. lia.
Qed.




(** * More properties of the package *)

(** ** [NewParser] and the capacity of the queue *)

Lemma wrapInt_small z : (- 2 ^ 63 ≤ z < 2 ^ 63)%Z → wrapInt z = z.
Proof. intros Hz. unfold wrapInt. rewrite Z.mod_small; lia. Qed.




Lemma scanRange_frame contents : ∀ num s tr r s' tr',
  scanRange contents num s tr = (r, s', tr') →
  opts s' = opts s
  ∧ cap (queue s') = cap (queue s)
  ∧ closed (queue s') = closed (queue s)
  ∧ stop s' = stop s
  ∧ ((length (buf (queue s)) ≤ cap (queue s))%nat →
     (length (buf (queue s')) ≤ cap (queue s'))%nat)
  ∧ ∃ keys, buf (queue s') = buf (queue s) ++ keys ∧ tr' = tr ++ map EvSend keys.
Proof.
  induction contents as [|obj rest IH]; intros num s tr r s' tr' Hrun.
  - injection Hrun as <- <- <-. split_and!; [done..|].
    exists []. by rewrite !app_nil_r.
  - cbn [scanRange] in Hrun. destruct (Key obj) as [key|]; [|by eapply IH].
    destruct (stop s) eqn:Hstop; [rewrite <- Hstop; by eapply IH|].
    rewrite <- Hstop. unfold chanSend in Hrun.
    destruct (closed (queue s)) eqn:Hcl; rewrite <- ?Hcl.
    { injection Hrun as <- <- <-. split_and!; [done..|].
      exists []. by rewrite !app_nil_r. }
    destruct (Nat.ltb_spec (length (buf (queue s))) (cap (queue s))) as [Hlt|Hge].
    + apply IH in Hrun as (Ho & Hc & Hcl' & Hst & Hlen & keys & Hbuf & Htr).
      simpl in *. split_and!; [done | done | congruence | congruence | |].
      * intros _. apply Hlen. rewrite length_app. simpl. lia.
      * exists (key :: keys). rewrite Hbuf, Htr, <- !app_assoc. done.
    + injection Hrun as <- <- <-. split_and!; [done..|].
      exists []. by rewrite !app_nil_r.
Qed.

Lemma scanFrom_frame contents num s tr r s' tr' :
  scanFrom contents num s tr = (r, s', tr') →
  opts s' = opts s
  ∧ cap (queue s') = cap (queue s)
  ∧ closed (queue s') = closed (queue s)
  ∧ stop s' = stop s
  ∧ ((length (buf (queue s)) ≤ cap (queue s))%nat →
     (length (buf (queue s')) ≤ cap (queue s'))%nat)
  ∧ ∃ keys, buf (queue s') = buf (queue s) ++ keys.
Proof.
  unfold scanFrom.
  destruct (scanRange contents num s tr) as [[r0 s0] tr0] eqn:Hrange.
  apply scanRange_frame in Hrange as (? & ? & ? & ? & ? & keys & ? & ?).
  destruct r0; intros [= <- <- <-]; split_and!; eauto.
Qed.

Lemma workerRange_frame env o cl items : ∀ tr r items' tr',
  workerRange env o cl items tr = (r, items', tr') →
  ∃ taken, items = taken ++ items'.
Proof.
  intros tr r items' tr' H.
  destruct (workerRange_counts _ _ _ _ _ _ _ _ H) as (taken & ? & _). eauto.
Qed.

(** What a step of the pipeline leaves as it is, and what it does to the
    buffer: it adds keys at the end, or takes keys off the front. *)
Lemma step_frame env s tr s' tr' :
  step env (s, tr) (s', tr') →
  opts s' = opts s
  ∧ cap (queue s') = cap (queue s)
  ∧ ((length (buf (queue s)) ≤ cap (queue s))%nat →
     (length (buf (queue s')) ≤ cap (queue s'))%nat)
  ∧ ((∃ keys, buf (queue s') = buf (queue s) ++ keys)
     ∨ (∃ taken, buf (queue s) = taken ++ buf (queue s'))).
Proof.
  intros Hstep. inversion Hstep as [? ? r ? ? H | contents num ? ? r ? ? H
                                   | ? ? r ? ? H | ? ? fn rest r ? Hbuf H
                                   | ? ? r ? ? H | ? ? w req w' ? ? H]; subst.
  - unfold Scan in H. destruct (s3_ListObjectsV2 env tr _ _) as [err|contents].
    + injection H as <- <- <-. split_and!; [done..|]. left. exists [].
      by rewrite app_nil_r.
    + apply scanFrom_frame in H as (? & ? & ? & ? & ? & ?). split_and!; auto.
  - apply scanFrom_frame in H as (? & ? & ? & ? & ? & ?). split_and!; auto.
  - unfold Worker in H.
    destruct (workerRange env _ _ _ tr) as [[r0 items] tr0] eqn:Hrange.
    injection H as <- <- <-.
    apply workerRange_frame in Hrange as (taken & Hit). simpl.
    split_and!; [done | done | | eauto].
    rewrite Hit, length_app. lia.
  - simpl. split_and!; [done | done | |].
    + rewrite Hbuf. simpl. lia.
    + right. exists [fn]. by rewrite Hbuf.
  - unfold Stop in H. destruct (stop s).
    + injection H as <- <- <-. split_and!; [done..|]. left. exists [].
      by rewrite app_nil_r.
    + simpl in H. destruct (closed (queue s)); injection H as <- <- <-; simpl;
        (split_and!; [done..|]); left; exists []; by rewrite app_nil_r.
  - unfold Metrics in H. injection H as <- <- <-. split_and!; [done..|].
    left. exists []. by rewrite app_nil_r.
Qed.

(** X2: in every state a pipeline can reach the options are those it was
    made with, the capacity of the queue is the one [NewParser] gave it, and
    the queue holds no more keys than that: at most ten per worker. *)
Theorem queue_within_capacity env o s tr :
  reachable env o (s, tr) →
  opts s = o
  ∧ cap (queue s) = Z.to_nat (wrapInt (10 * Workers o))
  ∧ (length (buf (queue s)) ≤ cap (queue s))%nat
  ∧ ((0 ≤ Workers o ≤ maxWorkers)%Z →
     (Z.of_nat (length (buf (queue s))) ≤ 10 * Workers o)%Z).
Proof.
  intros Hreach.
  assert (opts s = o ∧ cap (queue s) = Z.to_nat (wrapInt (10 * Workers o))
          ∧ (length (buf (queue s)) ≤ cap (queue s))%nat) as (Ho & Hcap & Hlen).
  { remember (s, tr) as st eqn:Est. revert s tr Est.
    induction Hreach as [s0 Hnew | [s0 tr0] [s1 tr1] _ IH Hstep];
      intros s tr [= <- <-].
    - unfold NewParser in Hnew. destruct (_ <? 0)%Z; [done|].
      injection Hnew as <-. simpl. split_and!; [done | done | lia].
    - destruct (IH s0 tr0 eq_refl) as (Ho & Hcap & Hlen).
      apply step_frame in Hstep as (Ho' & Hcap' & Hlen' & _).
      split_and!; [congruence | congruence | auto]. }
  split_and!; [done..|]. intros Hw.
  rewrite Hcap in Hlen. unfold maxWorkers in Hw.
  rewrite wrapInt_small in Hlen by lia. lia.
Qed.

Lemma queue_within_capacity_witness :
  (Z.of_nat (length (buf (queue
     (Scan Fixture.scenarioA Fixture.parser []).1.2))) ≤ 20)%Z.
Proof.
  assert (reachable Fixture.scenarioA Fixture.options
            ((Scan Fixture.scenarioA Fixture.parser []).1.2,
             (Scan Fixture.scenarioA Fixture.parser []).2)) as Hreach.
  { eapply reachable_step.
    - apply (reachable_new _ _ Fixture.parser). vm_compute. reflexivity.
    - apply (step_Scan _ _ _ (Scan Fixture.scenarioA Fixture.parser []).1.1).
      by destruct (Scan Fixture.scenarioA Fixture.parser []) as [[? ?] ?]. }
  apply (proj2 (proj2 (proj2 (queue_within_capacity _ _ _ _ Hreach)))).
  vm_compute. split; discriminate.
Defined.

(** ** The keys in a trace *)

Lemma recvKeys_app evs1 evs2 : recvKeys (evs1 ++ evs2) = recvKeys evs1 ++ recvKeys evs2.
Proof. apply omap_app. Qed.

Lemma deleteKeys_app evs1 evs2 :
  deleteKeys (evs1 ++ evs2) = deleteKeys evs1 ++ deleteKeys evs2.
Proof. apply omap_app. Qed.

Lemma getKeys_app evs1 evs2 : getKeys (evs1 ++ evs2) = getKeys evs1 ++ getKeys evs2.
Proof. apply omap_app. Qed.

Lemma sendKeys_app evs1 evs2 : sendKeys (evs1 ++ evs2) = sendKeys evs1 ++ sendKeys evs2.
Proof. apply omap_app. Qed.

Lemma sendKeys_sends keys :
  sendKeys (map EvSend keys) = keys ∧ recvKeys (map EvSend keys) = []
  ∧ deleteKeys (map EvSend keys) = [] ∧ getKeys (map EvSend keys) = [].
Proof.
  induction keys as [|k keys (IH1 & IH2 & IH3 & IH4)]; [done|].
  split_and!; [simpl; by f_equal | done..].
Qed.

Lemma parseEvent_keys evs :
  Forall (fun e => parseEvent e = true) evs →
  recvKeys evs = [] ∧ sendKeys evs = [] ∧ deleteKeys evs = []
  ∧ countEvents isClose evs = 0%nat ∧ countEvents isList evs = 0%nat.
Proof.
  induction 1 as [|e evs He _ (IH1 & IH2 & IH3 & IH4 & IH5)]; [done|].
  rewrite !countEvents_cons, IH4, IH5.
  destruct e; try discriminate He; done.
Qed.

Lemma addEvents_keys env recs :
  getKeys (addEvents env recs) = [] ∧ countEvents isNewBatch (addEvents env recs) = 0%nat.
Proof.
  split; [|by apply addEvents_count].
  induction recs as [|entry recs IH]; [done|]. exact IH.
Qed.

(** ** The calls of [parseFile] *)

Lemma parseFile_head env o fn tr r tr' :
  parseFile env o fn tr = (r, tr') →
  match r with
  | Panic _ => tr' = tr
  | Val _ =>
      ∃ ns cf rest tl,
        strings_Split fn "/" = ns :: cf :: rest
        ∧ tr' = tr ++ EvNewBatch (buildLabels o ns cf)
                   :: EvGetObject (BucketName o) fn :: tl
        ∧ countEvents isNewBatch tl = 0%nat
        ∧ getKeys tl = []
  end.
Proof.
  intros Hrun.
  destruct (decide (length (strings_Split fn "/") < 2)%nat) as [Hlt|Hge].
  { rewrite parseFile_short in Hrun by done. by injection Hrun as <- <-. }
  destruct (Split_two fn) as (ns & cf & rest & Hsplit); [lia|].
  rewrite (parseFile_eq _ _ _ _ _ _ _ Hsplit) in Hrun. cbv zeta in Hrun.
  destruct (scanLines_adds env
              match s3_GetObject env (tr ++ [EvNewBatch (buildLabels o ns cf)])
                      (BucketName o) fn with
              | GetOk (GzipLines lines _) => lines
              | _ => []
              end (mkW3CLog [] [])
              ((tr ++ [EvNewBatch (buildLabels o ns cf)])
                 ++ [EvGetObject (BucketName o) fn]))
    as (r0 & recs & Hscan & _).
  destruct (addEvents_keys env recs) as (Hg & Hn).
  assert (∀ (res : option error) tl,
            countEvents isNewBatch tl = 0%nat → getKeys tl = [] →
            tr' = ((tr ++ [EvNewBatch (buildLabels o ns cf)])
                     ++ [EvGetObject (BucketName o) fn]) ++ tl →
            ∃ ns0 cf0 rest0 tl0,
              strings_Split fn "/" = ns0 :: cf0 :: rest0
              ∧ tr' = tr ++ EvNewBatch (buildLabels o ns0 cf0)
                         :: EvGetObject (BucketName o) fn :: tl0
              ∧ countEvents isNewBatch tl0 = 0%nat ∧ getKeys tl0 = []) as Hshape.
  { intros _ tl H1 H2 ->. exists ns, cf, rest, tl. by rewrite <- !app_assoc. }
  assert (∀ tl, countEvents isNewBatch tl = 0%nat → getKeys tl = [] →
            countEvents isNewBatch (addEvents env recs ++ tl) = 0%nat
            ∧ getKeys (addEvents env recs ++ tl) = []) as Htl.
  { intros tl H1 H2. by rewrite countEvents_app, getKeys_app, Hn, Hg, H1, H2. }
  destruct (s3_GetObject env _ _ _) as [err | [err | lines scanErr]].
  - destruct (strings_Contains _ _); injection Hrun as <- <-.
    + by apply (Hshape None [EvLog LevelDebug "skipping non-existent file" [("key", fn)]]).
    + apply (Hshape None []); [done | done | by rewrite app_nil_r].
  - injection Hrun as <- <-.
    apply (Hshape None []); [done | done | by rewrite app_nil_r].
  - rewrite Hscan in Hrun. destruct r0 as [err|].
    { injection Hrun as <- <-. by apply (Hshape None (addEvents env recs)). }
    destruct scanErr as [err|].
    { injection Hrun as <- <-. by apply (Hshape None (addEvents env recs)). }
    destruct (loki_Flush env _) as [err|]; injection Hrun as <- <-.
    + apply (Hshape None (addEvents env recs
                            ++ [EvPrintf ("Parsed " +:+ fn +:+ newline); EvBatchFlush]));
        [by apply Htl | by apply Htl | by rewrite <- !app_assoc].
    + apply (Hshape None (addEvents env recs
                            ++ [EvPrintf ("Parsed " +:+ fn +:+ newline); EvBatchFlush;
                                EvLog LevelDebug "shipped file"
                                  [("key", fn); ("lines", fmt_d 0)]]));
        [by apply Htl | by apply Htl | by rewrite <- !app_assoc].
Qed.

Lemma parseFile_trace_shape env o fn tr r tr' :
  parseFile env o fn tr = (r, tr') →
  ∃ evs,
    tr' = tr ++ evs
    ∧ Forall (fun e => parseEvent e = true) evs
    ∧ deleteKeys evs = [] ∧ sendKeys evs = [] ∧ recvKeys evs = []
    ∧ countEvents isList evs = 0%nat ∧ countEvents isClose evs = 0%nat
    ∧ match r with
      | Panic _ => evs = []
      | Val _ =>
          ∃ ns cf rest tl,
            strings_Split fn "/" = ns :: cf :: rest
            ∧ evs = EvNewBatch (buildLabels o ns cf)
                      :: EvGetObject (BucketName o) fn :: tl
            ∧ countEvents isNewBatch tl = 0%nat
            ∧ getKeys tl = []
      end.
Proof.
  intros Hrun.
  destruct (parseFile_events _ _ _ _ _ _ Hrun) as (evs & -> & Hall).
  exists evs. destruct (parseEvent_keys evs Hall) as (Hr & Hs & Hd & Hc & Hl).
  split_and!; [done..|].
  pose proof (parseFile_head _ _ _ _ _ _ Hrun) as Hhead.
  destruct r as [res|msg].
  - destruct Hhead as (ns & cf & rest & tl & Hsplit & Heq & H1 & H2).
    exists ns, cf, rest, tl. apply app_inv_head in Heq. done.
  - apply (app_inv_head tr). by rewrite app_nil_r.
Qed.

(** X3: a [parseFile] that returns has made exactly one batch, first of
    all, and then exactly one fetch, of its own key, before any line is
    added; apart from calls to the sink and log lines it does nothing else:
    it lists nothing, deletes nothing and does not touch the queue.  A
    [parseFile] that panics has done nothing at all. *)
Theorem parseFile_calls env o fn tr r tr' :
  parseFile env o fn tr = (r, tr') →
  ∃ evs,
    tr' = tr ++ evs
    ∧ Forall (fun e => parseEvent e = true) evs
    ∧ deleteKeys evs = [] ∧ sendKeys evs = [] ∧ recvKeys evs = []
    ∧ countEvents isList evs = 0%nat ∧ countEvents isClose evs = 0%nat
    ∧ match r with
      | Panic _ => evs = []
      | Val _ =>
          ∃ ns cf rest tl,
            strings_Split fn "/" = ns :: cf :: rest
            ∧ evs = EvNewBatch (buildLabels o ns cf)
                      :: EvGetObject (BucketName o) fn :: tl
            ∧ countEvents isNewBatch tl = 0%nat
            ∧ getKeys tl = []
      end.
Proof.
  intros Hrun.
  destruct (parseFile_events _ _ _ _ _ _ Hrun) as (evs & -> & Hall).
  exists evs. destruct (parseEvent_keys evs Hall) as (Hr & Hs & Hd & Hc & Hl).
  split_and!; [done..|].
  pose proof (parseFile_head _ _ _ _ _ _ Hrun) as Hhead.
  destruct r as [res|msg].
  - destruct Hhead as (ns & cf & rest & tl & Hsplit & Heq & H1 & H2).
    exists ns, cf, rest, tl. apply app_inv_head in Heq. done.
  - apply (app_inv_head tr). by rewrite app_nil_r.
Qed.

Lemma parseFile_calls_witness :
  ∃ evs,
    (parseFile Fixture.scenarioA Fixture.options Fixture.key []).2 = [] ++ evs
    ∧ deleteKeys evs = [].
Proof.
  destruct (parseFile_calls Fixture.scenarioA Fixture.options Fixture.key []
              (parseFile Fixture.scenarioA Fixture.options Fixture.key []).1
              (parseFile Fixture.scenarioA Fixture.options Fixture.key []).2)
    as (evs & H1 & _ & H2 & _).
  - by destruct (parseFile Fixture.scenarioA Fixture.options Fixture.key []).
  - exists evs. split; [exact H1 | exact H2].
Defined.

(** ** What a result of [parseFile] tells *)

Lemma addEvents_app env recs1 recs2 :
  addEvents env (recs1 ++ recs2) = addEvents env recs1 ++ addEvents env recs2.
Proof. apply map_app. Qed.

Lemma headerAfter_directive hdr line rest :
  strings_HasPrefix line "#Fields:" = true →
  headerAfter hdr (line :: rest) = headerAfter (tail (strings_Fields line)) rest.
Proof. intros H. cbn [headerAfter]. by rewrite H. Qed.

Lemma headerAfter_other hdr line rest :
  strings_HasPrefix line "#Fields:" = false →
  headerAfter hdr (line :: rest) = headerAfter hdr rest.
Proof. intros H. cbn [headerAfter]. by rewrite H. Qed.

(** A scan loop that runs to its end has added the record of every line
    it parsed, and the sink took them all. *)
Lemma scanLines_none env lines : ∀ w tr tr',
  scanLines env lines w tr = (Val None, tr') →
  ∃ recs,
    tr' = tr ++ addEvents env recs
    ∧ Forall2 recordOf (parsedLines (HeaderFields w) lines) recs
    ∧ firstReject env tr recs = None.
Proof.
  induction lines as [|line rest IH]; intros w tr tr' Hrun.
  - injection Hrun as <-. exists []. rewrite app_nil_r. split_and!; [done | constructor | done].
  - destruct (line_cases (HeaderFields w) line)
      as [Hd | [[Hd Hs] | [Hbad | (Hc & Hh & entry & Hrec)]]].
    + rewrite scanLines_directive in Hrun by done.
      rewrite parsedLines_directive by done. by apply IH in Hrun.
    + rewrite scanLines_skip in Hrun by done.
      rewrite parsedLines_skip by done. by apply IH in Hrun.
    + by rewrite scanLines_bad in Hrun.
    + rewrite (scanLines_good _ _ _ _ _ entry) in Hrun by (done || apply Hrec).
      rewrite parsedLines_data by done.
      destruct (loki_Add env tr (json_Marshal env entry)) as [err|] eqn:Hadd; [done|].
      apply IH in Hrun as (recs & -> & Hall & Hrej).
      exists (entry :: recs). rewrite <- app_assoc.
      split_and!; [done | by constructor |]. cbn [firstReject]. by rewrite Hadd, Hrej.
Qed.

(** A scan loop that ends in an error has met a data line with the wrong
    number of tokens, or a line the sink turned down; the records of the
    data lines before it have been added, and the sink took them. *)
Lemma scanLines_some env lines : ∀ w tr err tr',
  scanLines env lines w tr = (Val (Some err), tr') →
  ∃ pre line post recs,
    lines = pre ++ line :: post
    ∧ Forall2 recordOf (parsedLines (HeaderFields w) pre) recs
    ∧ firstReject env tr recs = None
    ∧ ((badDataLine (headerAfter (HeaderFields w) pre) line
        ∧ err = Wrap "error parsing data line"
                  (FieldCountMismatch
                     (length (headerAfter (HeaderFields w) pre))
                     (length (strings_Fields line)))
        ∧ tr' = tr ++ addEvents env recs)
       ∨ (∃ entry e,
            recordOf (headerAfter (HeaderFields w) pre, line) entry
            ∧ strings_HasPrefix line "#" = false
            ∧ headerAfter (HeaderFields w) pre ≠ []
            ∧ loki_Add env (tr ++ addEvents env recs) (json_Marshal env entry)
              = Some e
            ∧ err = Wrap "failed to send batch" e
            ∧ tr' = tr ++ addEvents env (recs ++ [entry]))).
Proof.
  induction lines as [|line rest IH]; intros w tr err tr' Hrun; [done|].
  destruct (line_cases (HeaderFields w) line)
    as [Hd | [[Hd Hs] | [Hbad | (Hc & Hh & entry & Hrec)]]].
  - rewrite scanLines_directive in Hrun by done.
    apply IH in Hrun as (pre & l & post & recs & -> & Hall & Hrej & Hcase).
    exists (line :: pre), l, post, recs. simpl HeaderFields in *.
    rewrite parsedLines_directive, headerAfter_directive by done. done.
  - rewrite scanLines_skip in Hrun by done.
    apply IH in Hrun as (pre & l & post & recs & -> & Hall & Hrej & Hcase).
    exists (line :: pre), l, post, recs.
    rewrite parsedLines_skip, headerAfter_other by done. done.
  - rewrite scanLines_bad in Hrun by done. injection Hrun as <- <-.
    exists [], line, rest, []. rewrite app_nil_r.
    split_and!; [done | constructor | done |]. left. done.
  - rewrite (scanLines_good _ _ _ _ _ entry) in Hrun by (done || apply Hrec).
    destruct (loki_Add env tr (json_Marshal env entry)) as [e|] eqn:Hadd.
    + injection Hrun as <- <-. exists [], line, rest, [].
      split_and!; [done | constructor | done |]. right.
      exists entry, e. rewrite app_nil_r. done.
    + apply IH in Hrun as (pre & l & post & recs & -> & Hall & Hrej & Hcase).
      exists (line :: pre), l, post, (entry :: recs).
      rewrite parsedLines_data, headerAfter_other
        by (done || by apply comment_not_directive).
      split_and!; [done | by constructor | |].
      { cbn [firstReject]. by rewrite Hadd, Hrej. }
      destruct Hcase as [(Hb & -> & ->) | (en & e & Hr & Hc' & Hh' & Ha & -> & ->)].
      * left. split_and!; [done | done |]. by rewrite <- app_assoc.
      * right. exists en, e. rewrite <- app_assoc in Ha.
        split_and!; [done | done | done | done | done |].
        by rewrite <- app_assoc.
Qed.

(** X4: when [parseFile] returns nil, either the fetch failed with an error
    whose text has "NoSuchKey" in it and nothing was added or flushed, or
    the object was fetched and unpacked, the record of every data line read
    under a header was added and taken by the sink, the scanner reported no
    error, and the batch was flushed with success as the last call to the
    sink.  The log line that follows reports 0 lines, however many were
    added. *)
Theorem parseFile_nil_means_flushed_or_gone env o fn tr tr' :
  parseFile env o fn tr = (Val None, tr') →
  ∃ ns cf rest,
    strings_Split fn "/" = ns :: cf :: rest
    ∧ let tr1 := tr ++ [EvNewBatch (buildLabels o ns cf)] in
      let tr2 := tr1 ++ [EvGetObject (BucketName o) fn] in
      (∃ e,
         s3_GetObject env tr1 (BucketName o) fn = GetErr e
         ∧ strings_Contains (error_Error e) "NoSuchKey" = true
         ∧ tr' = tr2 ++ [EvLog LevelDebug "skipping non-existent file"
                           [("key", fn)]])
      ∨ (∃ lines recs,
           s3_GetObject env tr1 (BucketName o) fn = GetOk (GzipLines lines None)
           ∧ Forall2 recordOf (parsedLines [] lines) recs
           ∧ firstReject env tr2 recs = None
           ∧ loki_Flush env (tr2 ++ addEvents env recs
                               ++ [EvPrintf ("Parsed " +:+ fn +:+ newline)])
             = None
           ∧ tr' = tr2 ++ addEvents env recs
                     ++ [EvPrintf ("Parsed " +:+ fn +:+ newline);
                         EvBatchFlush;
                         EvLog LevelDebug "shipped file"
                           [("key", fn); ("lines", "0")]]).
Proof.
  intros Hrun.
  destruct (decide (length (strings_Split fn "/") < 2)%nat) as [Hlt|Hge].
  { by rewrite parseFile_short in Hrun. }
  destruct (Split_two fn) as (ns & cf & rest & Hsplit); [lia|].
  exists ns, cf, rest. split; [done|]. cbv zeta.
  rewrite (parseFile_eq _ _ _ _ _ _ _ Hsplit) in Hrun. cbv zeta in Hrun.
  destruct (s3_GetObject env _ _ _) as [e | [e | lines scanErr]].
  - destruct (strings_Contains _ _) eqn:Hc; [|done].
    injection Hrun as <-. left. by exists e.
  - done.
  - destruct (scanLines env lines _ _) as [[[e|]|msg] tr3] eqn:Hscan; [done | | done].
    destruct scanErr as [e|]; [done|].
    apply scanLines_none in Hscan as (recs & -> & Hall & Hrej).
    destruct (loki_Flush env _) as [e|] eqn:Hflush; [done|].
    injection Hrun as <-. right. exists lines, recs.
    rewrite <- !app_assoc in *. done.
Qed.

Lemma parseFile_nil_means_flushed_or_gone_witness :
  ∃ ns cf rest, strings_Split Fixture.key "/" = ns :: cf :: rest.
Proof.
  destruct (parseFile_nil_means_flushed_or_gone Fixture.scenarioA Fixture.options
              Fixture.key []
              (parseFile Fixture.scenarioA Fixture.options Fixture.key []).2)
    as (ns & cf & rest & H & _).
  - vm_compute. reflexivity.
  - exists ns, cf, rest. exact H.
Defined.

(** X5: every error [parseFile] returns has one of six causes, and the
    trace shows how far it got.  The fetch failed with an error other than
    "NoSuchKey", or the body is no gzip stream: nothing was added.  Or the
    scan loop met a data line with the wrong number of tokens, or the sink
    turned a line down: the records of the data lines before it were added,
    and the line turned down is the last one added.  Or the scanner
    reported an error, which is returned as it is, after the record of every
    data line delivered was added.  Or the flush failed, as the last call.
    In none of them has a flush succeeded. *)
Theorem parseFile_error_causes env o fn tr err tr' :
  parseFile env o fn tr = (Val (Some err), tr') →
  ∃ ns cf rest,
    strings_Split fn "/" = ns :: cf :: rest
    ∧ let tr1 := tr ++ [EvNewBatch (buildLabels o ns cf)] in
      let tr2 := tr1 ++ [EvGetObject (BucketName o) fn] in
      (∃ e,
         s3_GetObject env tr1 (BucketName o) fn = GetErr e
         ∧ strings_Contains (error_Error e) "NoSuchKey" = false
         ∧ err = Wrap ("failed to get object " +:+ fn) e
         ∧ tr' = tr2)
      ∨ (∃ e,
           s3_GetObject env tr1 (BucketName o) fn = GetOk (NotGzip e)
           ∧ err = Wrap "failed to create gzip reader" e
           ∧ tr' = tr2)
      ∨ (∃ lines scanErr recs,
           s3_GetObject env tr1 (BucketName o) fn = GetOk (GzipLines lines scanErr)
           ∧ firstReject env tr2 recs = None
           ∧ ((∃ pre bad post,
                 lines = pre ++ bad :: post
                 ∧ Forall2 recordOf (parsedLines [] pre) recs
                 ∧ badDataLine (headerAfter [] pre) bad
                 ∧ err = Wrap "error parsing data line"
                           (FieldCountMismatch (length (headerAfter [] pre))
                                               (length (strings_Fields bad)))
                 ∧ tr' = tr2 ++ addEvents env recs)
              ∨ (∃ pre line post entry e,
                   lines = pre ++ line :: post
                   ∧ Forall2 recordOf (parsedLines [] pre) recs
                   ∧ recordOf (headerAfter [] pre, line) entry
                   ∧ loki_Add env (tr2 ++ addEvents env recs)
                              (json_Marshal env entry) = Some e
                   ∧ err = Wrap "failed to send batch" e
                   ∧ tr' = tr2 ++ addEvents env (recs ++ [entry]))
              ∨ (Forall2 recordOf (parsedLines [] lines) recs
                 ∧ scanErr = Some err
                 ∧ tr' = tr2 ++ addEvents env recs)
              ∨ (∃ e,
                   Forall2 recordOf (parsedLines [] lines) recs
                   ∧ scanErr = None
                   ∧ loki_Flush env (tr2 ++ addEvents env recs
                                       ++ [EvPrintf ("Parsed " +:+ fn +:+ newline)])
                     = Some e
                   ∧ err = Wrap "failed to flush batch" e
                   ∧ tr' = tr2 ++ addEvents env recs
                             ++ [EvPrintf ("Parsed " +:+ fn +:+ newline);
                                 EvBatchFlush]))).
Proof.
  intros Hrun.
  destruct (decide (length (strings_Split fn "/") < 2)%nat) as [Hlt|Hge].
  { by rewrite parseFile_short in Hrun. }
  destruct (Split_two fn) as (ns & cf & rest & Hsplit); [lia|].
  exists ns, cf, rest. split; [done|]. cbv zeta.
  rewrite (parseFile_eq _ _ _ _ _ _ _ Hsplit) in Hrun. cbv zeta in Hrun.
  destruct (s3_GetObject env _ _ _) as [e | [e | lines scanErr]].
  - destruct (strings_Contains _ _) eqn:Hc; [done|].
    injection Hrun as <- <-. left. by exists e.
  - injection Hrun as <- <-. right. left. by exists e.
  - right. right.
    destruct (scanLines env lines _ _) as [[[e|]|msg] tr3] eqn:Hscan; [| | done].
    + injection Hrun as <- <-.
      apply scanLines_some in Hscan
        as (pre & line & post & recs & -> & Hall & Hrej & Hcase).
      exists (pre ++ line :: post), scanErr, recs. split_and!; [done | done |].
      destruct Hcase as [(Hb & -> & ->) | (en & e0 & Hr & _ & _ & Ha & -> & ->)].
      * left. by exists pre, line, post.
      * right. left. by exists pre, line, post, en, e0.
    + apply scanLines_none in Hscan as (recs & -> & Hall & Hrej).
      exists lines, scanErr, recs. split_and!; [done | done |].
      destruct scanErr as [e|].
      * injection Hrun as <- <-. right. right. left. done.
      * destruct (loki_Flush env _) as [e|] eqn:Hflush; [|done].
        injection Hrun as <- <-. right. right. right. exists e.
        rewrite <- !app_assoc in *. done.
Qed.

Lemma parseFile_error_causes_witness :
  ∃ ns cf rest, strings_Split Fixture.key "/" = ns :: cf :: rest.
Proof.
  destruct (parseFile_error_causes Fixture.scenarioB Fixture.options Fixture.key []
              (Wrap "error parsing data line" (FieldCountMismatch 3 2))
              (parseFile Fixture.scenarioB Fixture.options Fixture.key []).2)
    as (ns & cf & rest & H & _).
  - vm_compute. reflexivity.
  - exists ns, cf, rest. exact H.
Defined.

(** ** A well-formed file and a sink that may fail *)

Lemma firstReject_bound env recs : ∀ tr k e,
  firstReject env tr recs = Some (k, e) → (k < length recs)%nat.
Proof.
  induction recs as [|entry recs IH]; intros tr k e; [done|]. cbn [firstReject].
  destruct (loki_Add env tr _); [intros [= <- _]; simpl; lia|].
  destruct (firstReject env _ recs) as [[k' e']|] eqn:Hrej; [|done].
  intros [= <- _]. apply IH in Hrej. simpl. lia.
Qed.

Lemma scanLines_wellFormed_any env lines : ∀ w tr,
  Forall goodDataLine (dataLines (HeaderFields w) lines) →
  ∃ recs,
    Forall2 recordOf (dataLines (HeaderFields w) lines) recs
    ∧ scanLines env lines w tr
      = match firstReject env tr recs with
        | Some (k, e) =>
            (Val (Some (Wrap "failed to send batch" e)),
             tr ++ addEvents env (take (S k) recs))
        | None => (Val None, tr ++ addEvents env recs)
        end.
Proof.
  induction lines as [|line rest IH]; intros w tr Hwf.
  - exists []. split; [constructor | by rewrite app_nil_r].
  - destruct (line_cases (HeaderFields w) line)
      as [Hd | [[Hd Hs] | [Hbad | (Hc & Hh & entry & Hrec)]]].
    + rewrite scanLines_directive by done.
      rewrite dataLines_directive in * by done. by apply (IH (mkW3CLog _ _)).
    + rewrite scanLines_skip by done.
      destruct (strings_HasPrefix line "#") eqn:Hc.
      * rewrite dataLines_comment in * by done. by apply IH.
      * destruct Hs as [?| Hs]; [done|].
        rewrite dataLines_data in Hwf by done.
        apply Forall_cons_1 in Hwf as [[Hne _] _]. by rewrite Hs in Hne.
    + destruct Hbad as (Hc & _ & Hn).
      rewrite dataLines_data in Hwf by done.
      apply Forall_cons_1 in Hwf as [[_ Heq] _]. done.
    + rewrite (scanLines_good _ _ _ _ _ entry) by (done || apply Hrec).
      rewrite dataLines_data in * by done.
      apply Forall_cons_1 in Hwf as [_ Hwf].
      destruct (IH w (tr ++ [EvBatchAdd (json_Marshal env entry)]) Hwf)
        as (recs & Hall & Hrun).
      exists (entry :: recs). split; [by constructor|]. cbn [firstReject].
      destruct (loki_Add env tr (json_Marshal env entry)) as [e|]; [done|].
      rewrite Hrun.
      destruct (firstReject env _ recs) as [[k e]|]; by rewrite <- app_assoc.
Qed.

(** X6: on a file in which every data line is read under a header that
    names a field and has as many tokens as the header has names,
    [parseFile] adds the records in the order of the file up to and
    including the first one the sink turns down, and then returns "failed
    to send batch" around the sink's error without a flush.  If the sink
    takes every record, an error of the scanner is returned as it is, after
    all records were added and without a flush; otherwise the batch is
    flushed, and a failed flush is returned as "failed to flush batch". *)
Theorem parseFile_wellFormed_outcomes env o fn tr ns cf rest lines scanErr :
  strings_Split fn "/" = ns :: cf :: rest →
  s3_GetObject env (tr ++ [EvNewBatch (buildLabels o ns cf)]) (BucketName o) fn
  = GetOk (GzipLines lines scanErr) →
  wellFormed lines →
  ∃ recs,
    let tr2 := tr ++ [EvNewBatch (buildLabels o ns cf);
                      EvGetObject (BucketName o) fn] in
    Forall2 recordOf (dataLines [] lines) recs
    ∧ match firstReject env tr2 recs with
      | Some (k, e) =>
          (k < length recs)%nat
          ∧ parseFile env o fn tr
            = (Val (Some (Wrap "failed to send batch" e)),
               tr2 ++ addEvents env (take (S k) recs))
      | None =>
          match scanErr with
          | Some e =>
              parseFile env o fn tr = (Val (Some e), tr2 ++ addEvents env recs)
          | None =>
              let tr4 := tr2 ++ addEvents env recs
                           ++ [EvPrintf ("Parsed " +:+ fn +:+ newline)] in
              match loki_Flush env tr4 with
              | Some e =>
                  parseFile env o fn tr
                  = (Val (Some (Wrap "failed to flush batch" e)),
                     tr4 ++ [EvBatchFlush])
              | None =>
                  parseFile env o fn tr
                  = (Val None,
                     tr4 ++ [EvBatchFlush;
                             EvLog LevelDebug "shipped file"
                               [("key", fn); ("lines", "0")]])
              end
          end
      end.
Proof.
  intros Hsplit Hget Hwf.
  destruct (scanLines_wellFormed_any env lines (mkW3CLog [] [])
              ((tr ++ [EvNewBatch (buildLabels o ns cf)])
                 ++ [EvGetObject (BucketName o) fn]) Hwf)
    as (recs & Hall & Hscan).
  exists recs. cbv zeta. split; [done|].
  rewrite (parseFile_eq _ _ _ _ _ _ _ Hsplit). cbv zeta. rewrite Hget, Hscan.
  replace (tr ++ [EvNewBatch (buildLabels o ns cf); EvGetObject (BucketName o) fn])
    with ((tr ++ [EvNewBatch (buildLabels o ns cf)])
            ++ [EvGetObject (BucketName o) fn]) by (by rewrite <- app_assoc).
  destruct (firstReject env _ recs) as [[k e]|] eqn:Hrej.
  - split; [by eapply firstReject_bound | done].
  - destruct scanErr as [e|]; [done|].
    rewrite (app_assoc _ (addEvents env recs)).
    destruct (loki_Flush env _) as [e|]; done.
Qed.

Lemma parseFile_wellFormed_outcomes_witness :
  ∃ e recs,
    parseFile (Fixture.choosy Fixture.scenarioTwo) Fixture.options Fixture.key []
    = (Val (Some (Wrap "failed to send batch" e)),
       [EvNewBatch (buildLabels Fixture.options "teamA" "dist123");
        EvGetObject (BucketName Fixture.options) Fixture.key]
         ++ addEvents (Fixture.choosy Fixture.scenarioTwo) recs)
    ∧ length recs = 2%nat.
Proof.
  assert (wellFormed Fixture.twoLines) as Hwf.
  { unfold wellFormed. vm_compute dataLines.
    repeat (constructor; [split; [discriminate | reflexivity]|]). constructor. }
  destruct (parseFile_wellFormed_outcomes (Fixture.choosy Fixture.scenarioTwo)
              Fixture.options Fixture.key [] "teamA" "dist123"
              ["2024010100.log.gz"] Fixture.twoLines None eq_refl eq_refl Hwf)
    as (recs & Hall & Hrun).
  cbv zeta in Hrun.
  assert (length recs = 2%nat) as Hlen.
  { apply Forall2_length in Hall. rewrite <- Hall. reflexivity. }
  destruct recs as [|r1 [|r2 [|r3 recs]]]; try discriminate Hlen.
  cbn [firstReject] in Hrun.
  change (loki_Add (Fixture.choosy Fixture.scenarioTwo) ?tr ?l)
    with (match last tr with
          | Some (EvBatchAdd _) => Some (External "429 Too Many Requests")
          | _ => None
          end) in Hrun.
  cbn in Hrun. destruct Hrun as [_ Hrun].
  exists (External "429 Too Many Requests"), [r1; r2]. split; [exact Hrun | reflexivity].
Defined.

(** ** The [Worker] loop as a whole *)

Lemma workerBody_account env o fn tr r tr' :
  workerBody env o fn tr = (r, tr') →
  ∃ evs,
    tr' = tr ++ evs
    ∧ recvKeys evs = [] ∧ sendKeys evs = []
    ∧ countEvents isClose evs = 0%nat ∧ countEvents isList evs = 0%nat
    ∧ match r with
      | None => deleteKeys evs = [fn] ∧ getKeys evs = [fn]
      | Some (WorkerReturn (Some _)) => deleteKeys evs = [] ∧ getKeys evs = [fn]
      | Some (WorkerPanic _) => deleteKeys evs = [] ∧ getKeys evs = []
      | Some _ => False
      end.
Proof.
  unfold workerBody.
  destruct (parseFile env o fn tr) as [res trp] eqn:Hparse.
  destruct (parseFile_trace_shape _ _ _ _ _ _ Hparse)
    as (evs & -> & _ & Hd & Hs & Hr & Hl & Hc & Hshape).
  assert (∀ res', res = Val res' → getKeys evs = [fn]) as Hget.
  { intros res' ->. destruct Hshape as (ns & cf & rest & tl & _ & -> & _ & Htl).
    simpl. by rewrite Htl. }
  destruct res as [[err|]|msg].
  - intros [= <- <-]. eexists. rewrite <- app_assoc. split; [reflexivity|].
    rewrite recvKeys_app, sendKeys_app, deleteKeys_app, getKeys_app,
      !countEvents_app, Hr, Hs, Hd, Hl, Hc, (Hget _ eq_refl). done.
  - destruct (s3_DeleteObject env _ _ _); intros [= <- <-];
      (eexists; rewrite <- app_assoc; split; [reflexivity|]);
      rewrite recvKeys_app, sendKeys_app, deleteKeys_app, getKeys_app,
        !countEvents_app, Hr, Hs, Hd, Hl, Hc, (Hget _ eq_refl); done.
  - intros [= <- <-]. exists evs. rewrite Hshape. done.
Qed.

Lemma workerRange_ledger env o cl items : ∀ tr r items' tr',
  workerRange env o cl items tr = (r, items', tr') →
  ∃ taken evs,
    tr' = tr ++ evs
    ∧ items = taken ++ items'
    ∧ recvKeys evs = taken
    ∧ deleteKeys evs
      = match r with
        | WorkerReturn None | WorkerBlocked => taken
        | _ => removelast taken
        end
    ∧ getKeys evs
      = match r with
        | WorkerPanic _ => removelast taken
        | _ => taken
        end
    ∧ sendKeys evs = []
    ∧ countEvents isClose evs = 0%nat
    ∧ countEvents isList evs = 0%nat
    ∧ match r with
      | WorkerReturn None => cl = true ∧ items' = []
      | WorkerBlocked => cl = false ∧ items' = []
      | _ => taken ≠ []
      end.
Proof.
  induction items as [|fn rest IH]; intros tr r items' tr' Hrange.
  - cbn [workerRange] in Hrange. injection Hrange as <- <- <-.
    exists [], []. rewrite app_nil_r.
    split_and!; try done; by destruct cl.
  - cbn [workerRange] in Hrange.
    destruct (workerBody env o fn (tr ++ [EvRecv fn])) as [res trb] eqn:Hbody.
    destruct (workerBody_account _ _ _ _ _ _ Hbody)
      as (evb & -> & Hr & Hs & Hc & Hl & Hres).
    destruct res as [r1|].
    + injection Hrange as <- <- <-.
      exists [fn], ([EvRecv fn] ++ evb). rewrite <- app_assoc.
      rewrite recvKeys_app, deleteKeys_app, getKeys_app, sendKeys_app,
        !countEvents_app, Hr, Hs, Hc, Hl.
      destruct r1 as [[e|]| |msg]; try done; destruct Hres as [-> ->];
        split_and!; done.
    + destruct (IH _ _ _ _ Hrange)
        as (taken & evs & -> & -> & Hr' & Hd' & Hg' & Hs' & Hc' & Hl' & Hend).
      destruct Hres as [Hdel Hget].
      exists (fn :: taken), (([EvRecv fn] ++ evb) ++ evs).
      rewrite <- !app_assoc.
      rewrite !recvKeys_app, !deleteKeys_app, !getKeys_app, !sendKeys_app,
        !countEvents_app, Hr, Hs, Hc, Hl, Hr', Hd', Hg', Hs', Hc', Hl', Hdel, Hget.
      assert (∀ l : list string, l ≠ [] → removelast (fn :: l) = fn :: removelast l)
        as Hrm by (intros [|? ?]; done).
      destruct r as [[e|]| |msg];
        (split_and!; try done; try (by destruct Hend);
         try (rewrite (Hrm _ Hend); reflexivity)).
Qed.

Lemma Worker_ledger env s tr r s' tr' :
  Worker env s tr = (r, s', tr') →
  ∃ taken evs,
    tr' = tr ++ evs
    ∧ buf (queue s) = taken ++ buf (queue s')
    ∧ recvKeys evs = taken
    ∧ deleteKeys evs
      = match r with
        | WorkerReturn None | WorkerBlocked => taken
        | _ => removelast taken
        end
    ∧ getKeys evs
      = match r with
        | WorkerPanic _ => removelast taken
        | _ => taken
        end
    ∧ sendKeys evs = []
    ∧ countEvents isClose evs = 0%nat
    ∧ countEvents isList evs = 0%nat
    ∧ opts s' = opts s ∧ cap (queue s') = cap (queue s)
    ∧ closed (queue s') = closed (queue s) ∧ stop s' = stop s
    ∧ match r with
      | WorkerReturn None => closed (queue s) = true ∧ buf (queue s') = []
      | WorkerBlocked => closed (queue s) = false ∧ buf (queue s') = []
      | _ => taken ≠ []
      end.
Proof.
  unfold Worker.
  destruct (workerRange env (opts s) (closed (queue s)) (buf (queue s)) tr)
    as [[r0 items] tr0] eqn:Hrange.
  intros [= <- <- <-]. cbn [queue buf opts cap closed stop].
  destruct (workerRange_ledger _ _ _ _ _ _ _ _ Hrange)
    as (taken & evs & Htr & Hbuf & Hr & Hd & Hg & Hs & Hc & Hl & Hend).
  exists taken, evs. split_and!; done.
Qed.

(** X7: a [Worker] takes keys off the front of the queue, in their order,
    and leaves the rest where it is.  Every key it has taken is fetched
    once, and a delete request is made for it once, in the same order,
    except for the last key when the [Worker] ends on its error (fetched,
    not deleted) or its panic (neither).  A [Worker] sends nothing to the
    queue, does not close it, lists nothing, and leaves the options, the
    capacity and the two flags as they are. *)
Theorem Worker_accounts env s tr r s' tr' :
  Worker env s tr = (r, s', tr') →
  ∃ taken evs,
    tr' = tr ++ evs
    ∧ buf (queue s) = taken ++ buf (queue s')
    ∧ recvKeys evs = taken
    ∧ deleteKeys evs
      = match r with
        | WorkerReturn None | WorkerBlocked => taken
        | _ => removelast taken
        end
    ∧ getKeys evs
      = match r with
        | WorkerPanic _ => removelast taken
        | _ => taken
        end
    ∧ sendKeys evs = []
    ∧ countEvents isClose evs = 0%nat
    ∧ countEvents isList evs = 0%nat
    ∧ opts s' = opts s ∧ cap (queue s') = cap (queue s)
    ∧ closed (queue s') = closed (queue s) ∧ stop s' = stop s
    ∧ match r with
      | WorkerReturn None => closed (queue s) = true ∧ buf (queue s') = []
      | WorkerBlocked => closed (queue s) = false ∧ buf (queue s') = []
      | _ => taken ≠ []
      end.
Proof.
  unfold Worker.
  destruct (workerRange env (opts s) (closed (queue s)) (buf (queue s)) tr)
    as [[r0 items] tr0] eqn:Hrange.
  intros [= <- <- <-]. cbn [queue buf opts cap closed stop].
  destruct (workerRange_ledger _ _ _ _ _ _ _ _ Hrange)
    as (taken & evs & Htr & Hbuf & Hr & Hd & Hg & Hs & Hc & Hl & Hend).
  exists taken, evs. split_and!; done.
Qed.

Lemma Worker_accounts_witness :
  ∃ taken evs,
    (Worker Fixture.scenarioA
            (mkParser Fixture.options (mkChan [Fixture.key; Fixture.key] 20 true) true)
            []).2 = [] ++ evs
    ∧ recvKeys evs = taken
    ∧ [Fixture.key; Fixture.key] = taken ++ [].
Proof.
  destruct (Worker_accounts Fixture.scenarioA
              (mkParser Fixture.options (mkChan [Fixture.key; Fixture.key] 20 true) true)
              [] (WorkerReturn None)
              (mkParser Fixture.options (mkChan [] 20 true) true)
              (Worker Fixture.scenarioA
                 (mkParser Fixture.options
                           (mkChan [Fixture.key; Fixture.key] 20 true) true) []).2)
    as (taken & evs & H1 & H2 & H3 & _).
  - vm_compute. reflexivity.
  - exists taken, evs. split_and!; [exact H1 | exact H3 | exact H2].
Defined.

(** X8: in a state a pipeline can reach, a [Worker] returns nil only when
    the pipeline is stopped, and then it has emptied the queue; while the
    pipeline is not stopped a [Worker] that meets no error waits on the
    empty queue instead.  So after a [Stop] a [Worker] never waits: it
    returns nil, having taken every key that was in the queue and made a
    delete request for each, in queue order, or it ends on the error or the
    panic of one file. *)
Theorem Worker_returns_nil_only_after_Stop env o s tr r s' tr' :
  reachable env o (s, tr) →
  Worker env s tr = (r, s', tr') →
  (r = WorkerReturn None → stop s = true)
  ∧ (r = WorkerBlocked → stop s = false)
  ∧ (stop s = true → r ≠ WorkerBlocked)
  ∧ (r = WorkerReturn None ∨ r = WorkerBlocked →
     buf (queue s') = []
     ∧ ∃ evs, tr' = tr ++ evs
              ∧ recvKeys evs = buf (queue s)
              ∧ deleteKeys evs = buf (queue s)
              ∧ getKeys evs = buf (queue s))
  ∧ (∀ x s1 tr1 r2 s2 tr2,
       Stop s tr = (x, s1, tr1) →
       Worker env s1 tr1 = (r2, s2, tr2) →
       r2 ≠ WorkerBlocked).
Proof.
  intros Hreach Hrun.
  destruct (reachable_invariant _ _ _ Hreach) as (_ & Hcl & _ & _). simpl in Hcl.
  destruct (Worker_ledger _ _ _ _ _ _ Hrun)
    as (taken & evs & -> & Hbuf & Hr & Hd & Hg & _ & _ & _ & _ & _ & _ & _ & Hend).
  split_and!.
  - intros ->. destruct Hend as [Hc _]. congruence.
  - intros ->. destruct Hend as [Hc _]. congruence.
  - intros Hstop ->. destruct Hend as [Hc _]. congruence.
  - intros [-> | ->]; destruct Hend as [_ Hempty];
      rewrite Hempty, app_nil_r in Hbuf; (split; [done|]);
      exists evs; rewrite Hbuf; done.
  - intros x s1 tr1 r2 s2 tr2 Hstop Hrun2 ->.
    destruct (Worker_ledger _ _ _ _ _ _ Hrun2)
      as (_ & _ & _ & _ & _ & _ & _ & _ & _ & _ & _ & _ & _ & _ & [Hopen _]).
    unfold Stop in Hstop. destruct (stop s) eqn:Hs.
    + injection Hstop as _ <- _. congruence.
    + simpl in Hstop. rewrite Hcl in Hstop. injection Hstop as _ <- _. done.
Qed.

Lemma Worker_returns_nil_only_after_Stop_witness :
  stop Fixture.parser = false.
Proof.
  assert (reachable Fixture.scenarioA Fixture.options (Fixture.parser, [])) as Hreach.
  { apply reachable_new. vm_compute. reflexivity. }
  apply (proj1 (proj2 (Worker_returns_nil_only_after_Stop Fixture.scenarioA
                  Fixture.options Fixture.parser [] WorkerBlocked
                  Fixture.parser [] Hreach eq_refl))).
  reflexivity.
Defined.

(** ** The queue is first in, first out *)

Lemma scanFrom_keys contents num s tr r s' tr' :
  scanFrom contents num s tr = (r, s', tr') →
  ∃ keys log,
    buf (queue s') = buf (queue s) ++ keys
    ∧ tr' = tr ++ map EvSend keys ++ log
    ∧ (log = [] ∨ ∃ attrs, log = [EvLog LevelInfo "new files" attrs])
    ∧ stop s' = stop s ∧ closed (queue s') = closed (queue s)
    ∧ (stop s = true → keys = []).
Proof.
  unfold scanFrom.
  destruct (scanRange contents num s tr) as [[r0 s0] tr0] eqn:Hrange.
  assert (stop s = true → s0 = s ∧ tr0 = tr) as Hstopped.
  { intros Hs. rewrite scanRange_stopped in Hrange by done. by injection Hrange. }
  destruct (scanRange_frame _ _ _ _ _ _ _ Hrange)
    as (_ & _ & Hc & Hs & _ & keys & Hbuf & ->).
  assert (stop s = true → keys = []) as Hnone.
  { intros Hst. destruct (Hstopped Hst) as [-> Htr].
    apply (f_equal length) in Hbuf. rewrite length_app in Hbuf.
    destruct keys; [done | simpl in Hbuf; lia]. }
  destruct r0 as [n | rest n | msg]; intros [= <- <- <-].
  - destruct (0 <? n)%nat.
    + exists keys, [EvLog LevelInfo "new files"
                      [("found", fmt_d n);
                       ("queue", fmt_d (length (buf (queue s0))))]].
      rewrite <- app_assoc. split_and!; eauto.
    + exists keys, []. rewrite app_nil_r. split_and!; eauto.
  - exists keys, []. rewrite app_nil_r. split_and!; eauto.
  - exists keys, []. rewrite app_nil_r. split_and!; eauto.
Qed.

Lemma log_keys log :
  log = [] ∨ (∃ attrs, log = [EvLog LevelInfo "new files" attrs]) →
  sendKeys log = [] ∧ recvKeys log = [] ∧ countEvents isClose log = 0%nat.
Proof. by intros [-> | [attrs ->]]. Qed.

(** What a step adds to the trace, against what it does to the buffer. *)
Lemma step_keys env s tr s' tr' :
  step env (s, tr) (s', tr') →
  ∃ evs,
    tr' = tr ++ evs
    ∧ buf (queue s) ++ sendKeys evs = recvKeys evs ++ buf (queue s')
    ∧ (stop s = true →
       stop s' = true ∧ closed (queue s') = closed (queue s)
       ∧ sendKeys evs = [] ∧ countEvents isClose evs = 0%nat
       ∧ buf (queue s) = recvKeys evs ++ buf (queue s')).
Proof.
  intros Hstep. inversion Hstep as [? ? r ? ? H | contents num ? ? r ? ? H
                                   | ? ? r ? ? H | ? ? fn rest r ? Hbuf H
                                   | ? ? r ? ? H | ? ? w req w' ? ? H]; subst.
  - unfold Scan in H. destruct (s3_ListObjectsV2 env tr _ _) as [err|contents].
    + injection H as <- <- <-. eexists. split; [reflexivity|]. simpl.
      rewrite app_nil_r. done.
    + apply scanFrom_keys in H as (keys & log & Hb & -> & Hlog & Hs & Hc & Hnone).
      destruct (log_keys log Hlog) as (Hl1 & Hl2 & Hl3).
      destruct (sendKeys_sends keys) as (Hk1 & Hk2 & _).
      destruct (countEvents_sends keys) as (_ & _ & Hk3 & _).
      eexists. rewrite <- app_assoc. split; [reflexivity|].
      rewrite !sendKeys_app, !recvKeys_app, !countEvents_app, Hk1, Hk2, Hk3,
        Hl1, Hl2, Hl3, Hb. simpl. rewrite !app_nil_r.
      split; [done|]. intros Hst. rewrite (Hnone Hst), app_nil_r.
      split_and!; congruence.
  - apply scanFrom_keys in H as (keys & log & Hb & -> & Hlog & Hs & Hc & Hnone).
    destruct (log_keys log Hlog) as (Hl1 & Hl2 & Hl3).
    destruct (sendKeys_sends keys) as (Hk1 & Hk2 & _).
    destruct (countEvents_sends keys) as (_ & _ & Hk3 & _).
    eexists. split; [reflexivity|].
    rewrite !sendKeys_app, !recvKeys_app, !countEvents_app, Hk1, Hk2, Hk3,
      Hl1, Hl2, Hl3, Hb. simpl. rewrite !app_nil_r.
    split; [done|]. intros Hst. rewrite (Hnone Hst), app_nil_r.
    split_and!; congruence.
  - destruct (Worker_ledger _ _ _ _ _ _ H)
      as (taken & evs & -> & Hbuf & Hr & _ & _ & Hs & Hc & _ & _ & _ & Hcl & Hst & _).
    exists evs. rewrite Hs, Hr, app_nil_r. split_and!; [done | done |].
    intros Hstop. split_and!; congruence.
  - destruct (workerBody_account _ _ _ _ _ _ H) as (evb & -> & Hr & Hs & Hc & _).
    exists ([EvRecv fn] ++ evb). rewrite <- app_assoc.
    rewrite sendKeys_app, recvKeys_app, countEvents_app, Hr, Hs, Hc, Hbuf. simpl.
    rewrite app_nil_r. split_and!; [done | done |]. intros Hstop. done.
  - unfold Stop in H. destruct (stop s) eqn:Hs.
    + injection H as <- <- <-. exists []. rewrite !app_nil_r. done.
    + simpl in H. destruct (closed (queue s)); injection H as <- <- <-.
      * exists []. rewrite !app_nil_r. done.
      * exists [EvClose]. simpl. rewrite app_nil_r. done.
  - unfold Metrics in H. injection H as <- <- <-. exists [].
    rewrite !app_nil_r. done.
Qed.

(** X9: the queue is first in, first out.  In every state a pipeline can
    reach, the keys sent to the queue so far, in the order they were sent,
    are the keys received from it, in the order they were received,
    followed by the keys in its buffer: no key is lost, doubled or
    overtaken on its way from [Scan] to a [Worker]. *)
Theorem queue_first_in_first_out env o s tr :
  reachable env o (s, tr) →
  sendKeys tr = recvKeys tr ++ buf (queue s).
Proof.
  intros Hreach. remember (s, tr) as st eqn:Est. revert s tr Est.
  induction Hreach as [s0 Hnew | [s0 tr0] [s1 tr1] _ IH Hstep];
    intros s tr [= <- <-].
  - unfold NewParser in Hnew. destruct (_ <? 0)%Z; [done|]. by injection Hnew as <-.
  - specialize (IH s0 tr0 eq_refl).
    apply step_keys in Hstep as (evs & -> & Hkeys & _).
    rewrite sendKeys_app, recvKeys_app, IH, <- !app_assoc. by f_equal.
Qed.

Lemma queue_first_in_first_out_witness :
  sendKeys (Scan Fixture.scenarioA Fixture.parser []).2
  = recvKeys (Scan Fixture.scenarioA Fixture.parser []).2
      ++ buf (queue (Scan Fixture.scenarioA Fixture.parser []).1.2).
Proof.
  apply (queue_first_in_first_out Fixture.scenarioA Fixture.options).
  eapply reachable_step.
  - apply (reachable_new _ _ Fixture.parser). vm_compute. reflexivity.
  - apply (step_Scan _ _ _ (Scan Fixture.scenarioA Fixture.parser []).1.1).
    by destruct (Scan Fixture.scenarioA Fixture.parser []) as [[? ?] ?].
Defined.

(** X10: stopping is final.  From a stopped state a pipeline can reach,
    whatever is called afterwards, the pipeline stays stopped and the queue
    closed, nothing more is sent to the queue and it is not closed again;
    the buffer only loses keys, from its front, to the workers. *)
Theorem stopped_stays_stopped env o st st' :
  reachable env o st →
  stop st.1 = true →
  steps env st st' →
  stop st'.1 = true
  ∧ closed (queue st'.1) = true
  ∧ sendKeys st'.2 = sendKeys st.2
  ∧ countEvents isClose st'.2 = 1%nat
  ∧ ∃ evs, st'.2 = st.2 ++ evs
           ∧ buf (queue st.1) = recvKeys evs ++ buf (queue st'.1).
Proof.
  intros Hreach Hstop Hsteps.
  destruct (reachable_invariant _ _ _ Hreach) as (_ & Hcl & Hclose & _).
  rewrite Hstop in Hcl, Hclose. clear Hreach.
  induction Hsteps as [[s tr] | [s tr] [s1 tr1] st2 Hstep _ IH]; simpl in *.
  - split_and!; [done..|]. exists []. by rewrite app_nil_r.
  - apply step_keys in Hstep as (evs & -> & _ & Hfinal).
    destruct (Hfinal Hstop) as (Hs1 & Hc1 & Hsend & Hclose1 & Hbuf).
    destruct IH as (H1 & H2 & H3 & H4 & evs2 & H5 & H6); [done | congruence | |].
    { by rewrite countEvents_app, Hclose1, Nat.add_0_r. }
    split_and!; [done | done | | done |].
    + by rewrite H3, sendKeys_app, Hsend, app_nil_r.
    + exists (evs ++ evs2). rewrite H5, <- app_assoc. split; [done|].
      by rewrite recvKeys_app, Hbuf, H6, <- app_assoc.
Qed.

Lemma stopped_stays_stopped_witness :
  stop (Scan Fixture.scenarioA
             (mkParser Fixture.options (mkChan [] 20 true) true)
             [EvClose]).1.2 = true.
Proof.
  assert (reachable Fixture.scenarioA Fixture.options
            (mkParser Fixture.options (mkChan [] 20 true) true, [EvClose]))
    as Hreach.
  { eapply reachable_step.
    - apply (reachable_new _ _ Fixture.parser). vm_compute. reflexivity.
    - apply (step_Stop _ _ _ (Val tt)). reflexivity. }
  assert (steps Fixture.scenarioA
            (mkParser Fixture.options (mkChan [] 20 true) true, [EvClose])
            ((Scan Fixture.scenarioA
                   (mkParser Fixture.options (mkChan [] 20 true) true)
                   [EvClose]).1.2,
             (Scan Fixture.scenarioA
                   (mkParser Fixture.options (mkChan [] 20 true) true)
                   [EvClose]).2)) as Hsteps.
  { apply rtc_once.
    apply (step_Scan _ _ _ (Scan Fixture.scenarioA
                                 (mkParser Fixture.options (mkChan [] 20 true) true)
                                 [EvClose]).1.1).
    by destruct (Scan Fixture.scenarioA
                      (mkParser Fixture.options (mkChan [] 20 true) true)
                      [EvClose]) as [[? ?] ?]. }
  destruct (stopped_stays_stopped _ _ _ _ Hreach eq_refl Hsteps) as [H _].
  exact H.
Defined.

(** ** The tokens of a line and the records made of them *)

Lemma noSpace_append a b : noSpace (a +:+ b) = noSpace a && noSpace b.
Proof.
  induction a as [|c a IH]; [done|]. rewrite append_cons. simpl.
  rewrite IH. by destruct (asciiSpace c).
Qed.

Lemma spaceWidth_zero c rest : spaceWidth (String c rest) = 0%nat → asciiSpace c = false.
Proof. unfold spaceWidth. by destruct (asciiSpace c). Qed.

Lemma flushField_clean cur :
  noSpace cur = true →
  Forall (fun tok => tok ≠ EmptyString ∧ noSpace tok = true) (flushField cur).
Proof. intros H. destruct cur; [constructor | by repeat constructor]. Qed.

Lemma fieldsFrom_clean s : ∀ skip cur,
  noSpace cur = true →
  Forall (fun tok => tok ≠ EmptyString ∧ noSpace tok = true) (fieldsFrom skip cur s).
Proof.
  induction s as [|c s IH]; intros skip cur Hcur.
  - by apply flushField_clean.
  - cbn [fieldsFrom]. destruct skip as [|k]; [|by apply IH].
    destruct (spaceWidth (String c s)) as [|k] eqn:Hw.
    + apply IH. rewrite noSpace_append, Hcur. simpl.
      by rewrite (spaceWidth_zero _ _ Hw).
    + apply Forall_app. split; [by apply flushField_clean | by apply IH].
Qed.

(** The fields of [strings.Fields] are not empty and have no ASCII white
    space in them. *)
Lemma Fields_clean s :
  Forall (fun tok => tok ≠ EmptyString ∧ noSpace tok = true) (strings_Fields s).
Proof. by apply fieldsFrom_clean. Qed.

Lemma last_occurrence (l : list string) k :
  k ∈ l → ∃ i, l !! i = Some k ∧ k ∉ drop (S i) l.
Proof.
  induction l as [|x l IH]; intros Hin; [by apply elem_of_nil in Hin|].
  destruct (decide (k ∈ l)) as [Hl|Hl].
  - destruct (IH Hl) as (i & Hi & Hlast). by exists (S i).
  - apply elem_of_cons in Hin as [->|?]; [|done]. by exists 0%nat.
Qed.

Lemma parseDataLine_inl line hdr entry :
  parseDataLine line hdr = Val (inl entry) →
  length (strings_Fields line) = length hdr ∧ recordOf (hdr, line) entry.
Proof.
  intros Hp.
  destruct (decide (length (strings_Fields line) = length hdr)) as [Heq|Hne].
  - split; [done|]. destruct (parseDataLine_match line hdr Heq) as (e & He).
    pose proof He as (He' & _). simpl in He'. rewrite Hp in He'.
    by injection He' as ->.
  - by rewrite parseDataLine_mismatch in Hp.
Qed.

(** X11: [parseDataLine] returns an error exactly when the number of tokens
    of the line differs from the number of header names.  Otherwise it
    returns a record each of whose keys is a header name and each of whose
    values is a token of the line, so never empty and free of ASCII white
    space.  When the header names are pairwise distinct, the record has as
    many entries as the header has names, it is the map of the header
    zipped with the tokens, and looking the names up in it in header order
    gives the tokens back. *)
Theorem parseDataLine_record line hdr :
  let fields := strings_Fields line in
  (length fields ≠ length hdr ↔
     parseDataLine line hdr
     = Val (inr (FieldCountMismatch (length hdr) (length fields))))
  ∧ (length fields = length hdr ↔
       ∃ entry, parseDataLine line hdr = Val (inl entry))
  ∧ ∀ entry,
      parseDataLine line hdr = Val (inl entry) →
      (∀ k v, entry !! k = Some v →
         k ∈ hdr ∧ v ∈ fields ∧ v ≠ EmptyString ∧ noSpace v = true)
      ∧ (NoDup hdr →
         size entry = length hdr
         ∧ entry = list_to_map (zip hdr fields)
         ∧ (fun name => entry !! name) <$> hdr = Some <$> fields).
Proof.
  intros fields. subst fields. split_and!.
  - split; [apply parseDataLine_mismatch|]. intros Hp Heq.
    destruct (parseDataLine_match line hdr Heq) as (e & He & _). simpl in He.
    congruence.
  - split.
    + intros Heq. destruct (parseDataLine_match line hdr Heq) as (e & He & _).
      by exists e.
    + intros [entry Hp]. by apply parseDataLine_inl in Hp as [? _].
  - intros entry Hp. apply parseDataLine_inl in Hp as [Hlen (_ & Hdom & Hlast)].
    simpl in *.
    assert (∀ i name, hdr !! i = Some name → NoDup hdr →
              entry !! name = strings_Fields line !! i) as Hnd.
    { intros i name Hi Hno. apply Hlast; [done|]. by apply NoDup_lookup_last. }
    split.
    + intros k v Hkv.
      assert (k ∈ hdr) as Hk.
      { apply (elem_of_list_to_set (C:=gset string)). rewrite <- Hdom.
        apply elem_of_dom. eauto. }
      destruct (last_occurrence hdr k Hk) as (i & Hi & Hl).
      rewrite (Hlast i k Hi Hl) in Hkv.
      assert (v ∈ strings_Fields line) as Hv by (by eapply list_elem_of_lookup_2).
      pose proof (Fields_clean line) as Hclean.
      rewrite Forall_forall in Hclean. destruct (Hclean v Hv). done.
    + intros Hno. split_and!.
      * rewrite <- size_dom, Hdom. by apply size_list_to_set.
      * apply map_eq. intros k. destruct (decide (k ∈ hdr)) as [Hk|Hk].
        -- apply list_elem_of_lookup in Hk as [i Hi].
           rewrite (Hnd i k Hi Hno).
           destruct (lookup_lt_is_Some_2 (strings_Fields line) i) as [f Hf].
           { rewrite Hlen. by eapply lookup_lt_Some. }
           rewrite Hf. symmetry. apply elem_of_list_to_map_1.
           { rewrite fst_zip by lia. done. }
           apply list_elem_of_lookup. exists i.
           apply lookup_zip_with_Some. eauto.
        -- rewrite (not_elem_of_list_to_map_1 (zip hdr (strings_Fields line)))
             by (rewrite fst_zip by lia; done).
           apply not_elem_of_dom. rewrite Hdom. by rewrite elem_of_list_to_set.
      * apply list_eq. intros i. rewrite !list_lookup_fmap.
        destruct (hdr !! i) as [name|] eqn:Hi; simpl.
        -- rewrite (Hnd i name Hi Hno).
           destruct (lookup_lt_is_Some_2 (strings_Fields line) i) as [f ->]; [|done].
           rewrite Hlen. by eapply lookup_lt_Some.
        -- apply lookup_ge_None in Hi. rewrite lookup_ge_None_2 by lia. done.
Qed.

Lemma parseDataLine_record_witness :
  ∃ entry,
    parseDataLine "2024-01-01 00:00:00 1.2.3.4" ["date"; "time"; "c-ip"]
    = Val (inl entry).
Proof.
  apply (proj1 (proj1 (proj2 (parseDataLine_record "2024-01-01 00:00:00 1.2.3.4"
                                ["date"; "time"; "c-ip"])))).
  reflexivity.
Defined.

(** ** What is shipped *)

Lemma dataLines_headers_clean lines : ∀ hdr,
  Forall (fun tok => tok ≠ EmptyString ∧ noSpace tok = true) hdr →
  Forall (fun d : list string * string =>
            Forall (fun tok => tok ≠ EmptyString ∧ noSpace tok = true) d.1)
         (dataLines hdr lines).
Proof.
  induction lines as [|line rest IH]; intros hdr Hhdr; [constructor|].
  cbn [dataLines]. destruct (strings_HasPrefix line "#Fields:").
  - apply IH. pose proof (Fields_clean line) as Hclean.
    destruct (strings_Fields line); [done|]. by apply Forall_cons_1 in Hclean as [_ ?].
  - destruct (strings_HasPrefix line "#"); [by apply IH|].
    constructor; [done | by apply IH].
Qed.

Lemma entryOf_clean d entry :
  Forall (fun tok => tok ≠ EmptyString ∧ noSpace tok = true) d.1 →
  entryOf d = Some entry →
  map_Forall (fun k v => (k ≠ EmptyString ∧ noSpace k = true)
                         ∧ (v ≠ EmptyString ∧ noSpace v = true)) entry.
Proof.
  intros Hhdr He. unfold entryOf in He.
  destruct (parseDataLine d.2 d.1) as [[e|?]|?] eqn:Hp; try done.
  injection He as ->. apply parseDataLine_inl in Hp as [_ (_ & Hdom & Hlast)].
  simpl in Hdom, Hlast. intros k v Hkv.
  assert (k ∈ d.1) as Hk.
  { apply (elem_of_list_to_set (C:=gset string)). rewrite <- Hdom.
    apply elem_of_dom. eauto. }
  split; [by rewrite Forall_forall in Hhdr; apply Hhdr|].
  destruct (last_occurrence d.1 k Hk) as (i & Hi & Hl).
  rewrite (Hlast i k Hi Hl) in Hkv.
  assert (v ∈ strings_Fields d.2) as Hv by (by eapply list_elem_of_lookup_2).
  pose proof (Fields_clean d.2) as Hclean.
  rewrite Forall_forall in Hclean. by apply Hclean.
Qed.

(** X12: whatever the file holds and however [parseFile] ends, every line
    it has added to the batch is the JSON of a record in which no key and
    no value is empty or has ASCII white space in it. *)
Theorem shipped_records_clean env o fn tr r tr' :
  parseFile env o fn tr = (r, tr') →
  ∃ evs recs,
    tr' = tr ++ evs
    ∧ batchAdds evs = map (json_Marshal env) recs
    ∧ Forall (map_Forall (fun k v =>
                (k ≠ EmptyString ∧ noSpace k = true)
                ∧ (v ≠ EmptyString ∧ noSpace v = true))) recs.
Proof.
  intros Hrun.
  destruct (decide (length (strings_Split fn "/") < 2)%nat) as [Hlt|Hge].
  { rewrite parseFile_short in Hrun by done. injection Hrun as <- <-.
    exists [], []. by rewrite app_nil_r. }
  destruct (Split_two fn) as (ns & cf & rest & Hsplit); [lia|].
  rewrite (parseFile_eq _ _ _ _ _ _ _ Hsplit) in Hrun. cbv zeta in Hrun.
  destruct (s3_GetObject env _ _ _) as [e | [e | lines scanErr]].
  - destruct (strings_Contains _ _); injection Hrun as <- <-;
      rewrite <- !app_assoc; eexists _, []; (split; [reflexivity|]); done.
  - injection Hrun as <- <-.
    rewrite <- !app_assoc; eexists _, []; (split; [reflexivity|]); done.
  - destruct (scanLines_adds env lines (mkW3CLog [] [])
                ((tr ++ [EvNewBatch (buildLabels o ns cf)])
                   ++ [EvGetObject (BucketName o) fn]))
      as (r0 & recs & Hscan & Hprefix).
    rewrite Hscan in Hrun.
    assert (Forall (map_Forall (fun k v =>
                      (k ≠ EmptyString ∧ noSpace k = true)
                      ∧ (v ≠ EmptyString ∧ noSpace v = true))) recs) as Hclean.
    { apply Forall_forall. intros entry Hin.
      destruct Hprefix as [more Hmore]. simpl in Hmore.
      assert (entry ∈ omap entryOf (parsedLines [] lines)) as Hin'.
      { rewrite Hmore. apply elem_of_app. by left. }
      apply list_elem_of_omap in Hin' as (d & Hd & He).
      eapply entryOf_clean; [|exact He].
      pose proof (dataLines_headers_clean lines [] (Forall_nil_2 _)) as Hall.
      rewrite Forall_forall in Hall. apply Hall.
      unfold parsedLines in Hd. by apply list_elem_of_filter in Hd as [_ ?]. }
    assert (∀ tl, batchAdds tl = [] →
              batchAdds ([EvNewBatch (buildLabels o ns cf);
                          EvGetObject (BucketName o) fn]
                           ++ addEvents env recs ++ tl)
              = map (json_Marshal env) recs) as Hadds.
    { intros tl Htl. rewrite !batchAdds_app, batchAdds_addEvents, Htl.
      by rewrite app_nil_r. }
    destruct r0 as [e|].
    { injection Hrun as <- <-. rewrite <- !app_assoc.
      eexists _, recs. split; [reflexivity|]. split; [|done].
      rewrite <- (Hadds []) by done. by rewrite app_nil_r. }
    destruct scanErr as [e|].
    { injection Hrun as <- <-. rewrite <- !app_assoc.
      eexists _, recs. split; [reflexivity|]. split; [|done].
      rewrite <- (Hadds []) by done. by rewrite app_nil_r. }
    destruct (loki_Flush env _) as [e|]; injection Hrun as <- <-;
      rewrite <- !app_assoc; eexists _, recs; (split; [reflexivity|]);
      (split; [|done]); by apply (Hadds (_ :: _)).
Qed.

Lemma shipped_records_clean_witness :
  ∃ evs recs,
    (parseFile Fixture.scenarioA Fixture.options Fixture.key []).2 = [] ++ evs
    ∧ batchAdds evs = map (json_Marshal Fixture.scenarioA) recs.
Proof.
  destruct (shipped_records_clean Fixture.scenarioA Fixture.options Fixture.key []
              (parseFile Fixture.scenarioA Fixture.options Fixture.key []).1
              (parseFile Fixture.scenarioA Fixture.options Fixture.key []).2)
    as (evs & recs & H1 & H2 & _).
  - by destruct (parseFile Fixture.scenarioA Fixture.options Fixture.key []).
  - exists evs, recs. split; [exact H1 | exact H2].
Defined.

(** ** The keys [parseFile] takes *)

Lemma Split_segments s : Forall (fun seg => noSlash seg = true) (strings_Split s "/").
Proof.
  induction s as [|c s IH]; [by repeat constructor|]. simpl.
  destruct (Ascii.eqb c "/") eqn:Hc; [by constructor|].
  destruct (strings_Split s "/") as [|seg segs]; [by repeat constructor; simpl; rewrite Hc|].
  apply Forall_cons_1 in IH as [Hseg Hsegs].
  constructor; [|done]. simpl. by rewrite Hc.
Qed.

Lemma Split_join s : String.concat "/" (strings_Split s "/") = s.
Proof.
  induction s as [|c s IH]; [done|]. cbn [strings_Split].
  pose proof (Split_nonempty s "/") as Hne.
  destruct (Ascii.eqb_spec c "/") as [->|Hc].
  - destruct (strings_Split s "/") as [|seg segs]; [done|].
    change (String.concat "/" (EmptyString :: seg :: segs))
      with (EmptyString +:+ "/" +:+ String.concat "/" (seg :: segs)).
    rewrite IH. reflexivity.
  - destruct (strings_Split s "/") as [|seg [|seg2 segs]]; [done | |].
    + change (String c seg = String c s). f_equal. exact IH.
    + change (String.concat "/" (String c seg :: seg2 :: segs))
        with (String c (seg +:+ "/" +:+ String.concat "/" (seg2 :: segs))).
      f_equal. exact IH.
Qed.

(** X13: the keys on which [parseFile] returns are exactly those of the form
    <namespace>/<sourceId> or <namespace>/<sourceId>/<rest>, where namespace
    and sourceId have no '/' in them and may be empty: the key is its
    segments joined by '/', and the first two segments are the values of
    the labels namespace and cloudfront the batch is made with (unless a
    configured label of that name overrides them). *)
Theorem accepted_key_form env o fn tr :
  (∃ r tr', parseFile env o fn tr = (Val r, tr'))
  ↔ ∃ ns src rest,
      strings_Split fn "/" = ns :: src :: rest
      ∧ fn = String.concat "/" (ns :: src :: rest)
      ∧ noSlash ns = true ∧ noSlash src = true
      ∧ Forall (fun seg => noSlash seg = true) rest
      ∧ (rest = [] → fn = ns +:+ "/" +:+ src)
      ∧ (rest ≠ [] → fn = ns +:+ "/" +:+ src +:+ "/" +:+ String.concat "/" rest)
      ∧ ∃ r tl, parseFile env o fn tr
                = (Val r, tr ++ EvNewBatch (Labels o ∪ dynamicLabels o ns src) :: tl).
Proof.
  split.
  - intros (r & tr' & Hrun).
    destruct (decide (length (strings_Split fn "/") < 2)%nat) as [Hlt|Hge].
    { by rewrite parseFile_short in Hrun. }
    destruct (Split_two fn) as (ns & src & rest & Hsplit); [lia|].
    exists ns, src, rest.
    pose proof (Split_segments fn) as Hsegs. rewrite Hsplit in Hsegs.
    apply Forall_cons_1 in Hsegs as [Hns Hsegs].
    apply Forall_cons_1 in Hsegs as [Hsrc Hrest].
    pose proof (Split_join fn) as Hjoin. rewrite Hsplit in Hjoin.
    split_and!; [done | done | done | done | done | | |].
    + intros ->. by rewrite <- Hjoin.
    + intros Hne. rewrite <- Hjoin at 1. by destruct rest.
    + destruct (parseFile_trace_shape _ _ _ _ _ _ Hrun)
        as (evs & -> & _ & _ & _ & _ & _ & _ & ns' & src' & rest' & tl & Hs' & -> & _).
      rewrite Hsplit in Hs'. injection Hs' as <- <- <-.
      exists r, (EvGetObject (BucketName o) fn :: tl).
      by rewrite Hrun, buildLabels_union.
  - intros (ns & src & rest & Hsplit & _).
    apply parseFile_no_panic. rewrite Hsplit. simpl. lia.
Qed.

Lemma accepted_key_form_witness :
  ∃ ns src rest, strings_Split Fixture.key "/" = ns :: src :: rest.
Proof.
  destruct (proj1 (accepted_key_form Fixture.scenarioA Fixture.options Fixture.key []))
    as (ns & src & rest & H & _).
  - eexists _, _. vm_compute. reflexivity.
  - exists ns, src, rest. exact H.
Defined.

(** ** What a [Scan] reports, and [Scan] next to [Stop] and [Worker] *)

Lemma scanRange_num contents : ∀ num s tr r s' tr',
  scanRange contents num s tr = (r, s', tr') →
  ∃ keys,
    buf (queue s') = buf (queue s) ++ keys
    ∧ tr' = tr ++ map EvSend keys
    ∧ match r with
      | RangeDone n | RangeBlocked _ n => n = (num + length keys)%nat
      | RangePanic _ => True
      end.
Proof.
  induction contents as [|obj rest IH]; intros num s tr r s' tr' Hrun.
  - injection Hrun as <- <- <-. exists []. rewrite !app_nil_r. simpl.
    split_and!; [done | done | lia].
  - cbn [scanRange] in Hrun. destruct (Key obj) as [key|]; [|by eapply IH].
    destruct (stop s); [by eapply IH|].
    unfold chanSend in Hrun. destruct (closed (queue s)).
    { injection Hrun as <- <- <-. exists []. by rewrite !app_nil_r. }
    destruct (Nat.ltb (length (buf (queue s))) (cap (queue s))).
    + apply IH in Hrun as (keys & Hbuf & -> & Hn). simpl in Hbuf.
      exists (key :: keys). rewrite Hbuf, <- !app_assoc.
      split_and!; [done | done |]. destruct r; simpl; lia || done.
    + injection Hrun as <- <- <-. exists []. rewrite !app_nil_r. simpl.
      split_and!; [done | done | lia].
Qed.

(** X14: what a [Scan] leaves in the trace.  After its one list request it
    sends keys, which are then at the end of the buffer in that order, and
    when it returns nil it logs "new files" exactly if it has sent at least
    one key, with the number of keys sent and the length of the queue after
    the last send.  It logs nothing when the listing failed (and then has
    sent nothing) or when it waits at a full queue, where the count it
    keeps is the number of keys sent so far. *)
Theorem Scan_reports env s tr r s' tr' :
  Scan env s tr = (r, s', tr') →
  ∃ keys,
    let request := EvListObjectsV2 (BucketName (opts s)) 100 in
    buf (queue s') = buf (queue s) ++ keys
    ∧ match r with
      | ScanReturn None =>
          tr' = tr ++ [request] ++ map EvSend keys
                  ++ match keys with
                     | [] => []
                     | _ => [EvLog LevelInfo "new files"
                               [("found", fmt_d (length keys));
                                ("queue", fmt_d (length (buf (queue s'))))]]
                     end
      | ScanReturn (Some e) =>
          keys = [] ∧ tr' = tr ++ [request]
          ∧ s3_ListObjectsV2 env tr (BucketName (opts s)) 100 = ListErr e
      | ScanBlocked rest n =>
          n = length keys ∧ tr' = tr ++ [request] ++ map EvSend keys
      | ScanPanic _ => tr' = tr ++ [request] ++ map EvSend keys
      end.
Proof.
  unfold Scan. cbv zeta.
  destruct (s3_ListObjectsV2 env tr _ _) as [e|contents].
  - intros [= <- <- <-]. exists []. by rewrite app_nil_r.
  - unfold scanFrom.
    destruct (scanRange contents 0 s _) as [[r0 s0] tr0] eqn:Hrange.
    apply scanRange_num in Hrange as (keys & Hbuf & -> & Hn).
    destruct r0 as [n | rest n | msg]; intros [= <- <- <-]; exists keys;
      (split; [done|]); rewrite <- ?app_assoc; [| done | done].
    simpl in Hn. subst n. destruct keys as [|k keys]; [by rewrite !app_nil_r|].
    done.
Qed.

Lemma Scan_reports_witness :
  ∃ keys,
    buf (queue (Scan Fixture.scenarioA Fixture.parser []).1.2)
    = buf (queue Fixture.parser) ++ keys.
Proof.
  destruct (Scan_reports Fixture.scenarioA Fixture.parser []
              (Scan Fixture.scenarioA Fixture.parser []).1.1
              (Scan Fixture.scenarioA Fixture.parser []).1.2
              (Scan Fixture.scenarioA Fixture.parser []).2)
    as (keys & H & _).
  - by destruct (Scan Fixture.scenarioA Fixture.parser []) as [[? ?] ?].
  - exists keys. exact H.
Defined.

(** X15: after a [Stop], from any state, a [Scan] still makes its list
    request and returns what the request gives (nil, or the error), but
    sends nothing to the queue and logs nothing: it does not panic on the
    closed channel, and the parser is as [Stop] left it. *)
Theorem Stop_then_Scan env s tr x s1 tr1 :
  Stop s tr = (x, s1, tr1) →
  stop s1 = true
  ∧ Scan env s1 tr1
    = (ScanReturn match s3_ListObjectsV2 env tr1 (BucketName (opts s1)) 100 with
                  | ListErr e => Some e
                  | ListOk _ => None
                  end,
       s1, tr1 ++ [EvListObjectsV2 (BucketName (opts s1)) 100]).
Proof.
  intros Hstop.
  assert (stop s1 = true) as Hs1.
  { unfold Stop in Hstop. destruct (stop s) eqn:Hs.
    - by injection Hstop as _ <- _.
    - simpl in Hstop. by destruct (closed (queue s)); injection Hstop as _ <- _. }
  split; [done|]. unfold Scan. cbv zeta.
  destruct (s3_ListObjectsV2 env tr1 _ _) as [e|contents]; [done|].
  unfold scanFrom. by rewrite scanRange_stopped.
Qed.

Lemma Stop_then_Scan_witness :
  stop (Stop Fixture.parser []).1.2 = true.
Proof.
  apply (proj1 (Stop_then_Scan Fixture.scenarioA Fixture.parser []
                  (Stop Fixture.parser []).1.1 (Stop Fixture.parser []).1.2
                  (Stop Fixture.parser []).2 eq_refl)).
Defined.

(** X16: one pass of the pipeline.  In a state a running (not stopped)
    pipeline can reach, with room in the queue for the keys of the listing,
    a [Scan] returns nil, and a [Worker] run after it that meets no error
    ends waiting on the empty queue, having taken the keys that were in
    the queue and then the keys of the listed objects, in listing order,
    and having fetched each and made a delete request for each, in that
    order. *)
Theorem Scan_then_Worker env o s tr contents r s2 tr2 :
  reachable env o (s, tr) →
  stop s = false →
  s3_ListObjectsV2 env tr (BucketName (opts s)) 100 = ListOk contents →
  (length (buf (queue s)) + length (omap Key contents) ≤ cap (queue s))%nat →
  ∃ s1 tr1,
    Scan env s tr = (ScanReturn None, s1, tr1)
    ∧ buf (queue s1) = buf (queue s) ++ omap Key contents
    ∧ (Worker env s1 tr1 = (r, s2, tr2) →
       r ≠ WorkerReturn None
       ∧ (r = WorkerBlocked →
          buf (queue s2) = []
          ∧ ∃ evs,
              tr2 = tr1 ++ evs
              ∧ recvKeys evs = buf (queue s) ++ omap Key contents
              ∧ getKeys evs = buf (queue s) ++ omap Key contents
              ∧ deleteKeys evs = buf (queue s) ++ omap Key contents)).
Proof.
  intros Hreach Hstop Hlist Hroom.
  destruct (reachable_invariant _ _ _ Hreach) as (_ & Hcl & _ & _). simpl in Hcl.
  unfold Scan. cbv zeta. rewrite Hlist.
  destruct s as [o' [b c cl] st]. simpl in *. subst cl st.
  destruct (scanFrom_open contents 0 o' b c
              (tr ++ [EvListObjectsV2 (BucketName o') 100]))
    as (visited & rest & log & Hcontents & Hrun & _ & _ & _ & Hall).
  destruct (Hall Hroom) as [-> ->]. rewrite Hrun.
  eexists _, _. split; [reflexivity|]. split; [done|].
  intros Hworker.
  destruct (Worker_ledger _ _ _ _ _ _ Hworker)
    as (taken & evs & -> & Hbuf & Hr & Hd & Hg & _ & _ & _ & _ & _ & _ & _ & Hend).
  simpl in *. split.
  - intros ->. by destruct Hend.
  - intros ->. destruct Hend as [_ Hempty]. rewrite Hempty, app_nil_r in Hbuf.
    split; [done|]. exists evs. rewrite Hbuf. done.
Qed.

Lemma Scan_then_Worker_witness :
  ∃ s1 tr1,
    Scan Fixture.scenarioA Fixture.parser [] = (ScanReturn None, s1, tr1)
    ∧ buf (queue s1) = [] ++ omap Key [mkObject (Some Fixture.key); mkObject None].
Proof.
  assert (reachable Fixture.scenarioA Fixture.options (Fixture.parser, [])) as Hreach.
  { apply reachable_new. vm_compute. reflexivity. }
  destruct (Scan_then_Worker Fixture.scenarioA Fixture.options Fixture.parser []
              [mkObject (Some Fixture.key); mkObject None]
              WorkerBlocked Fixture.parser [] Hreach eq_refl eq_refl)
    as (s1 & tr1 & H1 & H2 & _).
  - vm_compute. lia.
  - exists s1, tr1. split; [exact H1 | exact H2].
Defined.

(** ** An object that is gone, and a header that changes *)

Lemma Contains_spec s sub :
  strings_Contains s sub = true ↔ ∃ a b, s = a +:+ sub +:+ b.
Proof.
  induction s as [|c s IH].
  - cbn [strings_Contains]. destruct (strings_HasPrefix EmptyString sub) eqn:Hp.
    + apply HasPrefix_spec in Hp as [suf Hs]. split; [|done]. intros _.
      by exists EmptyString, suf.
    + split; [done|]. intros ([|? a] & b & Hs); [|done].
      rewrite append_nil_l in Hs.
      assert (strings_HasPrefix EmptyString sub = true) as Hp'
        by (apply HasPrefix_spec; eauto). congruence.
  - cbn [strings_Contains]. destruct (strings_HasPrefix (String c s) sub) eqn:Hp.
    + apply HasPrefix_spec in Hp as [suf Hs]. split; [|done]. intros _.
      by exists EmptyString, suf.
    + rewrite IH. split.
      * intros (a & b & ->). by exists (String c a), b.
      * intros ([|c' a] & b & Hs).
        -- rewrite append_nil_l in Hs.
           assert (strings_HasPrefix (String c s) sub = true) as Hp'
             by (apply HasPrefix_spec; eauto). congruence.
        -- rewrite append_cons in Hs. injection Hs as _ ->. by exists a, b.
Qed.

(** X17: a fetch error counts as "the object is gone" exactly when its text
    has NoSuchKey somewhere in it, whatever else it says.  For such a key a
    turn of the [Worker] loop ships nothing and flushes nothing, and still
    makes a delete request for the key, going on with the next key whether
    or not that request fails. *)
Theorem Worker_on_gone_key env o fn tr ns cf rest e :
  strings_Split fn "/" = ns :: cf :: rest →
  s3_GetObject env (tr ++ [EvNewBatch (buildLabels o ns cf)]) (BucketName o) fn
  = GetErr e →
  ((∃ a b, error_Error e = a +:+ "NoSuchKey" +:+ b) ↔
     ∃ tr', parseFile env o fn tr = (Val None, tr'))
  ∧ ((∃ a b, error_Error e = a +:+ "NoSuchKey" +:+ b) →
     ∃ evs,
       workerBody env o fn tr = (None, tr ++ evs)
       ∧ batchAdds evs = []
       ∧ countEvents isFlush evs = 0%nat
       ∧ getKeys evs = [fn]
       ∧ deleteKeys evs = [fn]).
Proof.
  intros Hsplit Hget.
  pose proof (parseFile_eq env o fn tr ns cf rest Hsplit) as Heq.
  cbv zeta in Heq. rewrite Hget in Heq.
  split.
  - rewrite <- Contains_spec. split.
    + intros Hc. rewrite Hc in Heq. eauto.
    + intros [tr' Hrun]. rewrite Hrun in Heq.
      by destruct (strings_Contains _ _).
  - rewrite <- Contains_spec. intros Hc. rewrite Hc in Heq.
    unfold workerBody. rewrite Heq.
    destruct (s3_DeleteObject env _ _ _); rewrite <- !app_assoc;
      eexists; (split; [reflexivity|]); done.
Qed.

Lemma Worker_on_gone_key_witness :
  ∃ evs,
    workerBody Fixture.gone Fixture.options Fixture.key [] = (None, [] ++ evs)
    ∧ deleteKeys evs = [Fixture.key].
Proof.
  destruct (proj2 (Worker_on_gone_key Fixture.gone Fixture.options Fixture.key []
                     "teamA" "dist123" ["2024010100.log.gz"] Fixture.noSuchKey
                     eq_refl eq_refl))
    as (evs & H1 & _ & _ & _ & H2).
  - exists "operation error S3: GetObject, api error ",
      ": The specified key does not exist.". reflexivity.
  - exists evs. split; [exact H1 | exact H2].
Defined.

(** X18: a stretch of lines that all start with '#' adds nothing to the
    batch and returns no error; it leaves the header fields as those of
    the last "#Fields:" line in it, or as they were if there is none.  So a
    header directive in the middle of a file replaces the header for the
    lines after it. *)
Theorem scanLines_comment_block env pre rest w tr :
  Forall (fun line => strings_HasPrefix line "#" = true) pre →
  scanLines env (pre ++ rest) w tr
  = scanLines env rest
      (mkW3CLog (headerAfter (HeaderFields w) pre) (Records w)) tr
  ∧ (Forall (fun line => strings_HasPrefix line "#Fields:" = false) pre →
     headerAfter (HeaderFields w) pre = HeaderFields w)
  ∧ (∀ before directive after,
       pre = before ++ directive :: after →
       strings_HasPrefix directive "#Fields:" = true →
       Forall (fun line => strings_HasPrefix line "#Fields:" = false) after →
       headerAfter (HeaderFields w) pre = tail (strings_Fields directive)).
Proof.
  intros Hpre. split_and!.
  - revert w. induction pre as [|line pre IH]; intros w.
    + by destruct w.
    + apply Forall_cons_1 in Hpre as [Hc Hpre]. rewrite <- app_comm_cons.
      destruct (strings_HasPrefix line "#Fields:") eqn:Hd.
      * rewrite scanLines_directive, headerAfter_directive by done.
        by rewrite (IH Hpre).
      * rewrite scanLines_skip, headerAfter_other by auto. by apply IH.
  - clear Hpre. generalize (HeaderFields w) as hdr.
    induction pre as [|line pre IH]; intros hdr Hall; [done|].
    apply Forall_cons_1 in Hall as [Hd Hall].
    rewrite headerAfter_other by done. by apply IH.
  - clear Hpre. intros before directive after -> Hd Hafter.
    generalize (HeaderFields w) as hdr.
    induction before as [|line before IH]; intros hdr.
    + rewrite app_nil_l, headerAfter_directive by done.
      clear Hd. generalize (tail (strings_Fields directive)) as h.
      induction after as [|line after IH]; intros h; [done|].
      apply Forall_cons_1 in Hafter as [Hd Hafter].
      rewrite headerAfter_other by done. by apply IH.
    + rewrite <- app_comm_cons. cbn [headerAfter].
      destruct (strings_HasPrefix line "#Fields:"); apply IH.
Qed.

Lemma scanLines_comment_block_witness :
  scanLines Fixture.scenarioA
            (["#Version: 1.0"; "#Fields: date time c-ip"]
               ++ ["2024-01-01 00:00:00 1.2.3.4"]) (mkW3CLog [] []) []
  = scanLines Fixture.scenarioA ["2024-01-01 00:00:00 1.2.3.4"]
      (mkW3CLog (headerAfter [] ["#Version: 1.0"; "#Fields: date time c-ip"]) []) [].
Proof.
  apply (proj1 (scanLines_comment_block Fixture.scenarioA
                  ["#Version: 1.0"; "#Fields: date time c-ip"]
                  ["2024-01-01 00:00:00 1.2.3.4"] (mkW3CLog [] []) []
                  ltac:(repeat constructor))).
Defined.
